(** * web_request_readers: the parameter binding engine

    A shallow embedding of [UnmarshalParams] and its helpers
    ([getNextOption], [NameAndArgs], [unmarshalToValue], [setValue],
    [setInt], [setFloat]) together with the [MissingFields] error type,
    and the properties of the binding engine proved about them.

    Go's run-time reflection is replaced by explicit type descriptors
    ([type]) and untyped value trees ([value]); an [interface{}] taken
    from the parameter map is a [raw].  The methods a field type declares
    (the capabilities [PreReceiver], [RequestValueReceiver],
    [PostReceiver], [DefaultValueCreator]) are functions stored in the
    descriptor of the type, and every call the engine makes to one of
    them is recorded in a list of [event]s.

    What the model leaves out: names are ASCII identifiers (Go
    lower-cases the letters outside ASCII too); [int] is 64 bits wide;
    [FieldByName] does not search the fields promoted from embedded
    structs; fields of interface, slice or map types are opaque;
    methods of field types are total functions; [reflect]'s [Convert]
    converts or is refused, and does not panic (as a slice too short
    for an array does in recent versions of Go).  A panic of the
    engine itself ([NumField] on an embedded field that is not a struct,
    [Type] behind a nil pointer to a pointer, a store to a field that
    cannot be set) is an outcome of its own, [Panic]. *)

From Stdlib Require Import ZArith Lia Ascii String List Bool.
From Stdlib Require Import Floats.SpecFloat.
From stdpp Require Import base option list strings gmap.

Local Open Scope string_scope.
Local Open Scope Z_scope.

(** ** Strings (package [strings], [unicode], [strconv]) *)

Module Strings.

(** [s[:n]] and [s[n:]] on byte strings. *)
Fixpoint take (n : nat) (s : string) : string :=
  match n, s with
  | S n', String c s' => String c (take n' s')
  | _, _ => EmptyString
  end.

Fixpoint drop (n : nat) (s : string) : string :=
  match n, s with
  | S n', String _ s' => drop n' s'
  | _, _ => s
  end.

(** [strings.IndexRune(s, c)] for a one-byte rune [c]; Go's [-1] is
    [None]. *)
Fixpoint IndexRune (s : string) (c : ascii) : option nat :=
  match s with
  | EmptyString => None
  | String a s' =>
      if Ascii.eqb a c then Some O
      else match IndexRune s' c with
           | Some i => Some (S i)
           | None => None
           end
  end.

(** [strings.HasPrefix(s, prefix)]. *)
Fixpoint HasPrefix (s prefix : string) : bool :=
  match prefix, s with
  | EmptyString, _ => true
  | String p prefix', String a s' => Ascii.eqb a p && HasPrefix s' prefix'
  | String _ _, EmptyString => false
  end.

Definition byte (c : ascii) : Z := Z.of_nat (nat_of_ascii c).

(** [unicode.IsUpper(rune(b))] for a byte [b], that is for a rune of
    Latin-1: the letters A-Z, and U+00C0..U+00DE except the
    multiplication sign U+00D7. *)
Definition IsUpper (c : ascii) : bool :=
  let b := byte c in
  ((65 <=? b) && (b <=? 90))
  || ((192 <=? b) && (b <=? 222) && negb (b =? 215)).

(** [strings.ToLower] as it works on ASCII text: the letters A-Z are
    lower-cased and the other bytes are kept as they are.  On a name
    with letters outside ASCII, which Go lower-cases as well, this is
    not [strings.ToLower]. *)
Definition lower (c : ascii) : ascii :=
  let b := byte c in
  if (65 <=? b) && (b <=? 90) then ascii_of_nat (nat_of_ascii c + 32) else c.

Fixpoint ToLower (s : string) : string :=
  match s with
  | EmptyString => EmptyString
  | String c s' => String (lower c) (ToLower s')
  end.

End Strings.

(** ** Errors *)

(** The two sentinel errors of [strconv]. *)
Inductive strconv_err := ErrSyntax | ErrRange.

(** [MissingFields] stores the names that were expected to be in a
    request, but were not found. *)
Record MissingFields := mkMissingFields { Names : list string }.

(** The [error] values the engine handles: [errors.New(msg)],
    [*strconv.NumError], a [MissingFields] value, and any error value
    made by a method of a field type. *)
Inductive error :=
| errors_New (msg : string)
| NumError (Func Num : string) (Err : strconv_err)
| MissingFieldsError (m : MissingFields)
| MethodError (msg : string).

(** [AddMissingField] adds a name that was missing from a request to
    the list. *)
Definition AddMissingField (err : MissingFields) (fieldName : string) : MissingFields :=
  {| Names := Names err ++ [fieldName] |}.

(** [HasMissingFields]: [len(err.Names) > 0]. *)
Definition HasMissingFields (err : MissingFields) : bool :=
  (0 <? length (Names err))%nat.

(** ** [strconv.ParseInt(s, 10, 64)] *)

Module Strconv.

Definition maxUint64 : Z := 2 ^ 64 - 1.

Definition digit (c : ascii) : option Z :=
  let b := Strings.byte c in
  if (48 <=? b) && (b <=? 57) then Some (b - 48) else None.

(** The digit loop of [ParseUint] in base 10, 64 bits: a byte that is
    not a decimal digit is a syntax error; the value leaving 64 bits is
    a range error, reported as soon as it happens. *)
Fixpoint ParseUint_loop (s : string) (n : Z) : Z + strconv_err :=
  match s with
  | EmptyString => inl n
  | String c s' =>
      match digit c with
      | None => inr ErrSyntax
      | Some d =>
          if n >=? maxUint64 / 10 + 1 then inr ErrRange
          else
            let n1 := n * 10 + d in
            if n1 >? maxUint64 then inr ErrRange else ParseUint_loop s' n1
      end
  end.

Definition ParseUint (s : string) : Z + strconv_err :=
  match s with
  | EmptyString => inr ErrSyntax
  | _ => ParseUint_loop s 0
  end.

(** [ParseInt]: an optional sign, then [ParseUint], then the range of
    [int64]. *)
Definition ParseInt (s : string) : Z + error :=
  let fnParseInt := "ParseInt" in
  match s with
  | EmptyString => inr (NumError fnParseInt s ErrSyntax)
  | String c s' =>
      let neg := Ascii.eqb c "-" in
      let digits := if Ascii.eqb c "+" || neg then s' else s in
      match ParseUint digits with
      | inr ErrSyntax => inr (NumError fnParseInt s ErrSyntax)
      | inr ErrRange => inr (NumError fnParseInt s ErrRange)
      | inl un =>
          let cutoff := 2 ^ 63 in
          if negb neg && (un >=? cutoff) then inr (NumError fnParseInt s ErrRange)
          else if neg && (un >? cutoff) then inr (NumError fnParseInt s ErrRange)
          else inl (if neg then - un else un)
      end
  end.

End Strconv.

(** ** Values and types *)

(** The widths of Go's signed and unsigned integer types: [W0] is the
    platform width of [int] and [uint], taken to be 64 bits. *)
Inductive IntWidth := W0 | W8 | W16 | W32 | W64.

Definition bits (w : IntWidth) : Z :=
  match w with W0 => 64 | W8 => 8 | W16 => 16 | W32 => 32 | W64 => 64 end.

(** Two's complement wrap-around to [n] bits, signed. *)
Definition wrap_signed (n : Z) (x : Z) : Z :=
  (x + 2 ^ (n - 1)) mod 2 ^ n - 2 ^ (n - 1).

(** [reflect.Kind].  The kinds the engine does not look into (arrays,
    slices, maps, interfaces, channels, functions, complex numbers) are
    [Other]. *)
Inductive BasicKind :=
| Bool | Int (w : IntWidth) | Uint (w : IntWidth)
| Float32 | Float64 | String_ | Other.

Inductive Kind := Basic (k : BasicKind) | Ptr | Struct.

(** An [interface{}] found in the parameter map, by dynamic type: the
    untyped [nil], a [string], one of [int], [int8], ..., [int64], an
    unsigned integer, a [float32] or [float64], a [bool], or a value of
    any other type (described by a label only). *)
Inductive raw :=
| RNil
| RString (s : string)
| RInt (w : IntWidth) (z : Z)
| RUint (w : IntWidth) (z : Z)
| RFloat32 (f : spec_float)
| RFloat64 (f : spec_float)
| RBool (b : bool)
| ROther (label : string).

Local Unset Elimination Schemes.

(** The content of a field: a scalar, a pointer ([VNil] or a pointee) or
    the fields of a struct, in declaration order. *)
Inductive value :=
| VBool (b : bool)
| VInt (z : Z)
| VUint (z : Z)
| VFloat (f : spec_float)
| VString (s : string)
| VOpaque (label : string)
| VNil
| VPtrTo (v : value)
| VStruct (fields : list value).

(** A method of a named type [T], with an argument of type [A] and a
    result of type [R].  [ptr_receiver] tells whether it is declared on
    [*T]; [body] takes the argument and the [T] the method works on (or
    [VNil], for a method of [*T] called on a nil pointer) and returns
    that [T] after the call and the method's result.  What a method
    with a value receiver does to its receiver is lost, since it works
    on a copy.  Methods are total: a panic inside one is not modelled. *)
Record method (A R : Type) := mkMethod {
  ptr_receiver : bool;
  body : A -> value -> value * R
}.
Arguments mkMethod {A R} _ _.
Arguments ptr_receiver {A R} _.
Arguments body {A R} _ _ _.

(** The four capabilities of the package, as the methods a type has or
    has not:
    - [PreReceive() error]
    - [Receive(interface{}) error]
    - [PostReceive() error]
    - [DefaultValue() interface{}] *)
Record methods := mkMethods {
  PreReceive : option (method unit (option error));
  Receive : option (method raw (option error));
  PostReceive : option (method unit (option error));
  DefaultValue : option (method unit raw)
}.

Definition no_methods : methods :=
  {| PreReceive := None; Receive := None; PostReceive := None; DefaultValue := None |}.

(** [reflect.StructTag]: the key/value pairs of the tag string. *)
Definition StructTag := list (string * string).

(** [reflect.StructField] without its type, which [type] pairs with it. *)
Record StructField := mkStructField {
  Name : string;
  Tag : StructTag;
  Anonymous : bool
}.

(** [reflect.Type]: a named (or predeclared) type of a basic kind, a
    pointer type, or a struct type with its fields.  [ms] holds the
    methods of the type that matter here, declared or promoted. *)
Inductive type :=
| TBasic (name : string) (k : BasicKind) (ms : methods)
| TPtr (elem : type)
| TStruct (name : string) (ms : methods) (fields : list (StructField * type)).

Local Set Elimination Schemes.

Definition Kind_of (t : type) : Kind :=
  match t with
  | TBasic _ k _ => Basic k
  | TPtr _ => Ptr
  | TStruct _ _ _ => Struct
  end.

Definition declared_methods (t : type) : methods :=
  match t with
  | TBasic _ _ ms => ms
  | TPtr _ => no_methods
  | TStruct _ ms _ => ms
  end.

(** [reflect.Zero(t)]. *)
Fixpoint Zero (t : type) : value :=
  match t with
  | TBasic _ k _ =>
      match k with
      | Bool => VBool false
      | Int _ => VInt 0
      | Uint _ => VUint 0
      | Float32 | Float64 => VFloat (S754_zero false)
      | String_ => VString ""
      | Other => VOpaque ""
      end
  | TPtr _ => VNil
  | TStruct _ _ fields => VStruct (map (fun ft => Zero (snd ft)) fields)
  end.

(** [v.IsNil()] for a pointer. *)
Definition IsNil (v : value) : bool :=
  match v with VNil => true | _ => false end.

(** *** Method sets

    [target.Interface().(I)] succeeds when the method set of the field's
    type has the method: for a named type [T], the methods declared on
    [T]; for [*T], all the methods of [T]. *)
Definition value_receiver {A R} (m : option (method A R)) : option (method A R) :=
  match m with
  | Some m' => if ptr_receiver m' then None else Some m'
  | None => None
  end.

Definition method_set {A R} (sel : methods -> option (method A R)) (t : type)
  : option (method A R) :=
  match t with
  | TPtr elem => sel (declared_methods elem)
  | _ => value_receiver (sel (declared_methods t))
  end.

(** [target.Addr().Interface().(I)]: the method set of [*T] for a field
    of type [T]; a pointer to a pointer has no methods. *)
Definition method_set_addr {A R} (sel : methods -> option (method A R)) (t : type)
  : option (method A R) :=
  match t with
  | TPtr _ => None
  | _ => sel (declared_methods t)
  end.

(** Calling a method found for a field of type [t]: on the pointee of
    a field of pointer type, on the field itself otherwise. *)
Definition invoke {A R} (t : type) (m : method A R) (a : A) (field : value) : value * R :=
  match t, field with
  | TPtr _, VPtrTo x =>
      let (x', r) := body m a x in
      (if ptr_receiver m then VPtrTo x' else field, r)
  | TPtr _, _ => (field, snd (body m a VNil))
  | _, _ =>
      let (x', r) := body m a field in
      (if ptr_receiver m then x' else field, r)
  end.

(** Calling a method that was bound to the field some time before the
    call, as [setValue] does with the interface values it takes from
    [target.Interface()] before any hook runs.  [Interface()] copies
    the field: a method with a value receiver, found on a field that is
    not a pointer, works on [copy], the field as it was then, whatever
    happened to the field since.  A method reached through a pointer
    (a field of pointer type, or [target.Addr()]) works on the field as
    it is when the call is made. *)
Definition invoke_bound {A R} (t : type) (m : method A R) (a : A)
    (copy field : value) : value * R :=
  match t with
  | TPtr _ => invoke t m a field
  | _ => if ptr_receiver m then invoke t m a field else (field, snd (body m a copy))
  end.

(** A method with a value receiver called through a nil pointer
    panics before its body runs. *)
Definition nil_receiver_panics {A R} (t : type) (m : method A R) (field : value) : bool :=
  match t with
  | TPtr _ => IsNil field && negb (ptr_receiver m)
  | _ => false
  end.

(** ** Floating point conversions ([float64] is binary64) *)

Module Float.

Definition float64_of_Z (z : Z) : spec_float := binary_normalize 53 1024 z 0 false.

(** [float32(x)] then back to [float64], as [SetFloat] does on a
    [float32] field. *)
Definition round32 (x : spec_float) : spec_float :=
  match x with
  | S754_finite s m e => binary_round 24 128 s m e
  | _ => x
  end.

(** [int64(x)]: the fraction is discarded; a value outside [int64]
    (or a NaN) gives the smallest [int64], as on amd64. *)
Definition int64_of (x : spec_float) : Z :=
  match x with
  | S754_zero _ => 0
  | S754_finite s m e =>
      let mag := if 0 <=? e then Zpos m * 2 ^ e else Zpos m / 2 ^ (- e) in
      let z := if s then - mag else mag in
      if (- 2 ^ 63 <=? z) && (z <? 2 ^ 63) then z else - 2 ^ 63
  | _ => - 2 ^ 63
  end.

End Float.

(** ** Tags: [getNextOption] and [NameAndArgs] *)

(** [tag.Get(key)]: the value of the first pair with that key, or the
    empty string. *)
Fixpoint Get (tag : StructTag) (key : string) : string :=
  match tag with
  | [] => ""
  | (k, v) :: tag' => if String.eqb k key then v else Get tag' key
  end.

(** [for len(remaining) > 0 && remaining[0] == ',' { remaining = remaining[1:] }] *)
Fixpoint trimCommas (remaining : string) : string :=
  match remaining with
  | String c remaining' => if Ascii.eqb c "," then trimCommas remaining' else remaining
  | EmptyString => remaining
  end.

Definition getNextOption (remainingTag : string) : string * string :=
  match Strings.IndexRune remainingTag "," with
  | None => (remainingTag, "")
  | Some commaIdx =>
      let nextOption := Strings.take commaIdx remainingTag in
      let remaining := Strings.drop commaIdx remainingTag in
      (nextOption, trimCommas remaining)
  end.

(** [for remaining != "" { next, remaining = getNextOption(remaining);
    args = append(args, next) }].  Each round shortens [remaining]
    ([getNextOption_shorter]), so its length is fuel enough
    ([collectArgs_fuel]). *)
Fixpoint collectArgs (fuel : nat) (remaining : string) (args : list string) : list string :=
  match fuel with
  | O => args
  | S fuel' =>
      if String.eqb remaining "" then args
      else
        let (next, remaining') := getNextOption remaining in
        collectArgs fuel' remaining' (args ++ [next])
  end.

Definition NameAndArgs (fieldType : StructField) : string * list string :=
  let tag := Get (Tag fieldType) "request" in
  let (name, remaining) := getNextOption tag in
  let args := collectArgs (String.length remaining) remaining [] in
  if negb (String.eqb name "") then (name, args)
  else
    let name := Get (Tag fieldType) "response" in
    if negb (String.eqb name "") then (name, args)
    else
      (* Fall back to db tag if it isn't "-" *)
      let name := Get (Tag fieldType) "db" in
      if negb (String.eqb name "") && negb (String.eqb name "-") then (name, args)
      else (Strings.ToLower (Name fieldType), args).

(** ** Conversion: [setInt], [setFloat], [setValue] *)

Definition SqlNullablePrefix : string := "Null".
Definition SqlNotNullField : string := "Valid".

(** What a call leaves in its named result [parseErr]: [nil], an error,
    or nothing because the call panicked. *)
Inductive status := Nil | Failed (e : error) | Panic.

Definition status_of (e : option error) : status :=
  match e with Some e' => Failed e' | None => Nil end.

(** The calls [setValue] makes to the methods of the field's type. *)
Inductive hook := PreReceiveCall | ReceiveCall (v : raw) | PostReceiveCall.

Record set_result := mkSet {
  sv_target : value;      (* the field after the call *)
  sv_err : status;
  sv_calls : list hook
}.

(** [fieldType.Name[0]] is upper case.  A declared field has a name; for
    the empty string, where Go would panic, the answer is [false]. *)
Definition exported (name : string) : bool :=
  match name with
  | String c _ => Strings.IsUpper c
  | EmptyString => false
  end.

(** Whether Go exports the name: it starts with an upper case letter
    (names are ASCII identifiers). *)
Definition IsExported (name : string) : bool :=
  match name with
  | String c _ => (65 <=? Strings.byte c) && (Strings.byte c <=? 90)
  | EmptyString => false
  end.

(** [target.FieldByName(name)] among the fields the struct declares
    itself (fields promoted from embedded structs are not searched). *)
Fixpoint FieldByName (fields : list (StructField * type)) (name : string) : option nat :=
  match fields with
  | [] => None
  | (f, _) :: fields' =>
      if String.eqb (Name f) name then Some O
      else match FieldByName fields' name with
           | Some i => Some (S i)
           | None => None
           end
  end.

Section Conversion.

(** Taken from Go's library as they are: [strconv.ParseFloat(s, 64)],
    and [reflect]'s conversion of a value to a type, [None] when the
    value's type is not [ConvertibleTo] it.  A conversion between
    convertible types is taken to return. *)
Variable ParseFloat : string -> spec_float + error.
Variable Convert : raw -> type -> option value.

(** [CanSet]: a store through a [reflect.Value] obtained from a field
    that is not exported panics. *)
Definition store (canSet : bool) (target x : value) : value * status :=
  if canSet then (x, Nil) else (target, Panic).

Definition setInt (canSet : bool) (w : IntWidth) (target : value) (v : raw)
  : value * status :=
  let SetInt (x : Z) := store canSet target (VInt (wrap_signed (bits w) x)) in
  match v with
  | RString src =>
      match Strconv.ParseInt src with
      | inr err => (target, Failed err)
      | inl intVal => SetInt intVal
      end
  | RInt _ src => SetInt src
  | RFloat32 src => SetInt (Float.int64_of src)
  | RFloat64 src => SetInt (Float.int64_of src)
  | _ => (target, Nil)
  end.

Definition setFloat (canSet : bool) (single : bool) (target : value) (v : raw)
  : value * status :=
  let SetFloat (x : spec_float) :=
    store canSet target (VFloat (if single then Float.round32 x else x)) in
  match v with
  | RString src =>
      match ParseFloat src with
      | inr err => (target, Failed err)
      | inl floatVal => SetFloat floatVal
      end
  | RInt _ src => SetFloat (Float.float64_of_Z src)
  | RFloat32 src => SetFloat src
  | RFloat64 src => SetFloat src
  | _ => (target, Nil)
  end.

(** The [switch target.Kind()] that ends [setValue]. *)
Definition assign (canSet : bool) (t : type) (target : value) (v : raw) : value * status :=
  match Kind_of t with
  | Basic (Int w) => setInt canSet w target v
  | Basic Float32 => setFloat canSet true target v
  | Basic Float64 => setFloat canSet false target v
  | _ =>
      match Convert v t with
      | None => (target, Failed (errors_New "Cannot convert value to target type"))
      | Some x => store canSet target x
      end
  end.

Definition is_nil (v : raw) : bool :=
  match v with RNil => true | _ => false end.

(** The support for the [Null*] types of [database/sql]: a struct
    named [Null] + [X] with fields [X] and [Valid].  [Valid] is set to
    [value != nil] (a panic unless it is a [bool]) and the conversion
    goes on with the field [X]. *)
Definition nullable (t : type) (target : value) (v : raw) : value * status :=
  match t, target with
  | TStruct targetTypeName _ fields, VStruct vs =>
      if Strings.HasPrefix targetTypeName SqlNullablePrefix then
        let typeName := Strings.drop (String.length SqlNullablePrefix) targetTypeName in
        match FieldByName fields typeName, FieldByName fields SqlNotNullField with
        | Some i, Some j =>
            match fields !! j, fields !! i with
            | Some (_, TBasic "bool" Bool _), Some (f, ft) =>
                let vs1 := <[j := VBool (negb (is_nil v))]> vs in
                match vs1 !! i with
                | Some typeVal =>
                    let (typeVal', s) := assign (IsExported (Name f)) ft typeVal v in
                    (VStruct (<[i := typeVal']> vs1), s)
                | None => (target, Panic)
                end
            | _, _ => (target, Panic)
            end
        | _, _ => assign true t target v
        end
      else assign true t target v
  | _, _ => assign true t target v
  end.

(** [for target.Kind() == reflect.Ptr { target = target.Elem() }],
    then the conversion of the pointee.  Behind a nil pointer there is
    no value, and [target.Type()] panics. *)
Fixpoint builtin (t : type) (target : value) (v : raw) : value * status :=
  match t with
  | TPtr elem =>
      match target with
      | VPtrTo x => let (x', s) := builtin elem x v in (VPtrTo x', s)
      | _ => (target, Panic)
      end
  | _ => nullable t target v
  end.

(** A capability is looked for on the value, then (for an addressable
    target) on the pointer to it. *)
Definition capability {A R} (sel : methods -> option (method A R))
    (canAddr : bool) (t : type) : option (method A R) :=
  match method_set sel t with
  | Some m => Some m
  | None => if canAddr then method_set_addr sel t else None
  end.

(** The deferred function: [PostReceive] runs when [parseErr] is nil,
    which is also the case while a panic unwinds.  [copy] is the field
    as it was when [postReceiver] was bound. *)
Definition deferred (t : type) (copy : value)
    (postReceiver : option (method unit (option error)))
    (r : value * status) : set_result :=
  let (target, parseErr) := r in
  match postReceiver, parseErr with
  | Some m, Nil =>
      let (target', err) := invoke_bound t m tt copy target in
      mkSet target' (status_of err) [PostReceiveCall]
  | Some m, Panic =>
      let (target', _) := invoke_bound t m tt copy target in
      mkSet target' Panic [PostReceiveCall]
  | _, _ => mkSet target parseErr []
  end.

Definition and_then (calls : list hook) (r : set_result) : set_result :=
  mkSet (sv_target r) (sv_err r) (calls ++ sv_calls r).

(** [if target.Kind() == reflect.Ptr && target.IsNil()
    { target.Set(reflect.New(target.Type().Elem())) }] *)
Definition allocated (t : type) (target : value) : value :=
  match t with
  | TPtr elem => if IsNil target then VPtrTo (Zero elem) else target
  | _ => target
  end.

(** [setValue] takes a target and a value, and updates the target to
    match the value. *)
Definition setValue (canAddr : bool) (t : type) (target : value) (v : raw) : set_result :=
  if is_nil v then
    match Kind_of t with
    | Ptr => mkSet (if IsNil target then target else Zero t) Nil []
    | _ => mkSet target (Failed (errors_New "Cannot set non-pointer value to null")) []
    end
  else
    let target := allocated t target in
    (* [target.Interface()], three times, before any hook runs *)
    let copy := target in
    let hasPreReceive := capability PreReceive canAddr t in
    let hasReceive := capability Receive canAddr t in
    let hasPostReceive := capability PostReceive canAddr t in
    let convert (target : value) : set_result :=
      match hasReceive with
      | Some receiver =>
          let (target', err) := invoke_bound t receiver v copy target in
          and_then [ReceiveCall v]
            (deferred t copy hasPostReceive (target', status_of err))
      | None => deferred t copy hasPostReceive (builtin t target v)
      end in
    match hasPreReceive with
    | Some preReceiver =>
        let (target', err) := invoke t preReceiver tt target in
        match err with
        | Some e => mkSet target' (Failed e) [PreReceiveCall]
        | None => and_then [PreReceiveCall] (convert target')
        end
    | None => convert target
    end.

End Conversion.

(** ** The traversal: [unmarshalToValue] and [UnmarshalParams] *)

(** A field is identified by its position: the indices leading to it
    from the target struct, through the embedded structs. *)
Definition path := list nat.

(** The calls made to methods of field types during a traversal. *)
Inductive event :=
| HookCall (p : path) (h : hook)
| DefaultValueCall (p : path).

(** [targetValue.Field(i)] and a store to it. *)
Definition Field (targetValue : value) (i : nat) : option value :=
  match targetValue with
  | VStruct vs => vs !! i
  | _ => None
  end.

Definition SetField (targetValue : value) (i : nat) (x : value) : value :=
  match targetValue with
  | VStruct vs => VStruct (<[i := x]> vs)
  | _ => targetValue
  end.

(** The state of a traversal: the two results of [unmarshalToValue],
    the target and the [MissingFields] it updates in place, and the
    method calls made so far. *)
Record walk := mkWalk {
  matchedFields : nat;
  parseErr : status;
  target : value;
  missingErr : MissingFields;
  calls : list event
}.

(** The [for _, arg := range args] loop that settles [required]. *)
Fixpoint requiredness (required : bool) (args : list string) : bool :=
  match args with
  | [] => required
  | arg :: args' =>
      if String.eqb arg "optional" then false
      else if String.eqb arg "required" then true
      else requiredness required args'
  end.

Section Traversal.

Variable ParseFloat : string -> spec_float + error.
Variable Convert : raw -> type -> option value.

(** The package variable [DefaultRequired], as it is when the call is
    made, and the parameters of the request. *)
Variable DefaultRequired : bool.
Variable params : gmap string raw.

Section Fields.

(** The recursive call for an embedded field, and the path of the
    struct whose fields are visited. *)
Variable unmarshalEmbedded : type -> value -> MissingFields -> path -> walk.
Variable here : path.

(** The body of the loop, for the field of index [i].  The target has
    as many fields as its type; were one missing, [Field(i)] would
    panic.  The error [setValue] returns for a default value is dropped,
    a panic is not. *)
Definition visit (i : nat) (fieldType : StructField) (ty : type) (w : walk) : walk :=
  match Field (target w) i with
  | None => mkWalk (matchedFields w) Panic (target w) (missingErr w) (calls w)
  | Some field =>
      if Anonymous fieldType then
        let r := unmarshalEmbedded ty field (missingErr w) (here ++ [i])%list in
        mkWalk (matchedFields w + matchedFields r) (parseErr r)
               (SetField (target w) i (target r)) (missingErr r)
               (calls w ++ calls r)%list
      else if exported (Name fieldType) then
        let (name, args) := NameAndArgs fieldType in
        if String.eqb name "-" then w
        else
          let required := requiredness DefaultRequired args in
          match params !! name with
          | Some v =>
              let r := setValue ParseFloat Convert true ty field v in
              mkWalk (matchedFields w + 1) (sv_err r)
                     (SetField (target w) i (sv_target r)) (missingErr w)
                     (calls w ++ map (HookCall (here ++ [i])%list) (sv_calls r))%list
          | None =>
              if required then
                mkWalk (matchedFields w) (parseErr w) (target w)
                       (AddMissingField (missingErr w) name) (calls w)
              else
                match method_set DefaultValue ty with
                | Some defaulter =>
                    if nil_receiver_panics ty defaulter field then
                      mkWalk (matchedFields w) Panic (target w) (missingErr w) (calls w)
                    else
                      let (field', dv) := invoke ty defaulter tt field in
                      let r := setValue ParseFloat Convert true ty field' dv in
                      mkWalk (matchedFields w)
                             (match sv_err r with Panic => Panic | _ => parseErr w end)
                             (SetField (target w) i (sv_target r)) (missingErr w)
                             (calls w ++ DefaultValueCall (here ++ [i])%list
                                :: map (HookCall (here ++ [i])%list) (sv_calls r))%list
                | None => w
                end
          end
      else w
  end.

(** [for i := 0; i < targetValue.NumField() && parseErr == nil; i++] *)
Fixpoint fields_loop (fields : list (StructField * type)) (i : nat) (w : walk) : walk :=
  match fields with
  | [] => w
  | (fieldType, ty) :: rest =>
      match parseErr w with
      | Nil => fields_loop rest (S i) (visit i fieldType ty w)
      | _ => w
      end
  end.

End Fields.

(** [unmarshalToValue] is a helper for [UnmarshalParams], which keeps
    track of the total number of fields matched in a request and which
    fields were missing from a request.  [NumField] panics on a value
    that is not a struct. *)
Fixpoint unmarshalToValue (targetType : type) (targetValue : value)
    (missingErr : MissingFields) (here : path) : walk :=
  match targetType with
  | TStruct _ _ fields =>
      fields_loop unmarshalToValue here fields O
                  (mkWalk O Nil targetValue missingErr [])
  | _ => mkWalk O Panic targetValue missingErr []
  end.

(** What the caller of [UnmarshalParams] gets. *)
Inductive outcome := Returns (err : option error) | Panics.

Definition moreParameters : error :=
  errors_New "More parameters passed than this model has fields.".

(** [UnmarshalParams] on a pointer to [targetValue], a struct of type
    [targetType]: the outcome and the walk it comes from. *)
Definition UnmarshalParams_walk (targetType : type) (targetValue : value) : walk :=
  unmarshalToValue targetType targetValue (mkMissingFields []) [].

(** The tests that follow the traversal in [UnmarshalParams]. *)
Definition conclude (w : walk) : outcome :=
  match parseErr w with
  | Panic => Panics
  | Failed err => Returns (Some err)
  | Nil =>
      if (matchedFields w <? size params)%nat then Returns (Some moreParameters)
      else if HasMissingFields (missingErr w) then
        Returns (Some (MissingFieldsError (missingErr w)))
      else Returns None
  end.

Definition UnmarshalParams (targetType : type) (targetValue : value) : outcome :=
  conclude (UnmarshalParams_walk targetType targetValue).

End Traversal.

(** ** Induction on types, through the fields of structs *)

Section TypeInduction.

Variable P : type -> Prop.
Hypothesis Pbasic : forall name k ms, P (TBasic name k ms).
Hypothesis Pptr : forall elem, P elem -> P (TPtr elem).
Hypothesis Pstruct : forall name ms fields,
    Forall (fun ft => P (snd ft)) fields -> P (TStruct name ms fields).

Fixpoint type_ind (t : type) : P t :=
  match t with
  | TBasic name k ms => Pbasic name k ms
  | TPtr elem => Pptr elem (type_ind elem)
  | TStruct name ms fields =>
      Pstruct name ms fields
        ((fix all (l : list (StructField * type)) : Forall (fun ft => P (snd ft)) l :=
            match l with
            | [] => List.Forall_nil _
            | ft :: l' => List.Forall_cons _ ft l' (type_ind (snd ft)) (all l')
            end) fields)
  end.

End TypeInduction.

(** ** The key of a field, in the words of the specification *)

(** The text of a tag value before its first comma. *)
Fixpoint before_comma (s : string) : string :=
  match s with
  | EmptyString => EmptyString
  | String c s' => if Ascii.eqb c "," then EmptyString else String c (before_comma s')
  end.

Fixpoint first_nonempty (candidates : list string) : string :=
  match candidates with
  | [] => ""
  | c :: candidates' => if String.eqb c "" then first_nonempty candidates' else c
  end.

(** The persistence tag counts when present and not ["-"]. *)
Definition db_candidate (f : StructField) : string :=
  let db := Get (Tag f) "db" in
  if String.eqb db "-" then "" else db.

(** The key as the precedence rule words it: the first non-empty of the
    request tag value, the response tag value, the db tag value (when
    not ["-"]) and the lower-cased name. *)
Definition key_of_tag_values (f : StructField) : string :=
  first_nonempty
    [Get (Tag f) "request"; Get (Tag f) "response"; db_candidate f;
     Strings.ToLower (Name f)].

(** The same rule with the request tag cut at its first comma, where
    its options start. *)
Definition request_name (f : StructField) : string :=
  before_comma (Get (Tag f) "request").

Definition key_by_precedence (f : StructField) : string :=
  first_nonempty
    [request_name f; Get (Tag f) "response"; db_candidate f;
     Strings.ToLower (Name f)].

(** ** A concrete setting for the examples

    The examples need some [ParseFloat] and some [Convert]; none of them
    parses a float, and they only convert between identical basic
    types. *)

Definition ParseFloat_none (s : string) : spec_float + error :=
  inr (NumError "ParseFloat" s ErrSyntax).

Definition Convert_identical (v : raw) (t : type) : option value :=
  match v, Kind_of t with
  | RString s, Basic String_ => Some (VString s)
  | RBool b, Basic Bool => Some (VBool b)
  | _, _ => None
  end.

Definition t_string : type := TBasic "string" String_ no_methods.
Definition t_int : type := TBasic "int" (Int W0) no_methods.
Definition t_int64 : type := TBasic "int64" (Int W64) no_methods.
Definition t_uint : type := TBasic "uint" (Uint W0) no_methods.
Definition t_bool : type := TBasic "bool" Bool no_methods.

(** [sql.NullInt64]: [struct { Int64 int64; Valid bool }]. *)
Definition NullInt64 : type :=
  TStruct "NullInt64" no_methods
    [(mkStructField "Int64" [] false, t_int64);
     (mkStructField "Valid" [] false, t_bool)].

(** [struct { Count sql.NullInt64 }] *)
Definition Counter : type :=
  TStruct "Counter" no_methods [(mkStructField "Count" [] false, NullInt64)].

(** [Foo int `request:"name,optional"`] *)
Definition name_optional : StructField :=
  mkStructField "Foo" [("request", "name,optional")] false.

(** [Foo int `request:"name,required"`] *)
Definition name_required : StructField :=
  mkStructField "Foo" [("request", "name,required")] false.

(** [Foo int `db:"-"`] *)
Definition db_dash : StructField := mkStructField "Foo" [("db", "-")] false.


(** [type Email string] with [func (email *Email) Receive(interface{}) error],
    as in the README: a string is stored, anything else is an error. *)
Definition Email_Receive : method raw (option error) :=
  mkMethod true
    (fun rawEmail self =>
       match rawEmail with
       | RString emailStr => (VString emailStr, None)
       | _ => (self, Some (MethodError "Cannot read non-string email"))
       end).

Definition Email : type :=
  TBasic "Email" String_
    {| PreReceive := None; Receive := Some Email_Receive;
       PostReceive := None; DefaultValue := None |}.

(** [type Fixed int] with
    [func (f *Fixed) Receive(interface{}) error { *f = 99; return nil }]:
    an integer type that stores its own value, whatever it is sent. *)
Definition Fixed_Receive : method raw (option error) :=
  mkMethod true (fun _ _ => (VInt 99, None)).

Definition Fixed : type :=
  TBasic "Fixed" (Int W0)
    {| PreReceive := None; Receive := Some Fixed_Receive;
       PostReceive := None; DefaultValue := None |}.

(** [type Gate int] with
    [func (g *Gate) PreReceive() error { *g = 1; return nil }] and
    [func (g Gate) Receive(interface{}) error], which returns the error
    "closed" when [g] is 1 and nil otherwise. *)
Definition Gate_Receive : method raw (option error) :=
  mkMethod false
    (fun _ g =>
       match g with
       | VInt 1 => (g, Some (MethodError "closed"))
       | _ => (g, None)
       end).

Definition Gate : type :=
  TBasic "Gate" (Int W0)
    {| PreReceive := Some (mkMethod true (fun _ _ => (VInt 1, None)));
       Receive := Some Gate_Receive;
       PostReceive := None; DefaultValue := None |}.

(** [struct { Email *Email }] *)
Definition User : type :=
  TStruct "User" no_methods [(mkStructField "Email" [] false, TPtr Email)].

(** [struct { Age int; Name string }] *)
Definition Person : type :=
  TStruct "Person" no_methods
    [(mkStructField "Age" [] false, t_int);
     (mkStructField "Name" [] false, t_string)].

(** [type Limit int] with [func (Limit) DefaultValue() interface{} { return 10 }] *)
Definition Limit : type :=
  TBasic "Limit" (Int W0)
    {| PreReceive := None; Receive := None; PostReceive := None;
       DefaultValue := Some (mkMethod false (fun _ self => (self, RInt W0 10))) |}.

(** [struct { Limit Limit `request:"limit,optional"`; Page Limit `request:"page,optional"` }] *)
Definition Paging : type :=
  TStruct "Paging" no_methods
    [(mkStructField "Limit" [("request", "limit,optional")] false, Limit);
     (mkStructField "Page" [("request", "page,optional")] false, Limit)].

(** [struct { Paging; Query string }]: an embedded struct. *)
Definition Search : type :=
  TStruct "Search" no_methods
    [(mkStructField "Paging" [] true, Paging);
     (mkStructField "Query" [] false, t_string)].

(** ** Events and raw values *)

Definition event_path (e : event) : path :=
  match e with
  | HookCall p _ => p
  | DefaultValueCall p => p
  end.

(** How many times [DefaultValue] was called on the field at [p]. *)
Fixpoint default_calls (p : path) (evs : list event) : nat :=
  match evs with
  | [] => O
  | DefaultValueCall q :: evs' =>
      ((if decide (p = q) then 1 else 0) + default_calls p evs')%nat
  | _ :: evs' => default_calls p evs'
  end.

(** The raw values [setInt] and [setFloat] have no case for. *)
Definition unsupported (v : raw) : bool :=
  match v with
  | RBool _ | RUint _ _ | ROther _ => true
  | _ => false
  end.

(** The number of [Receive] calls with a given argument in the calls of
    one [setValue]. *)
Fixpoint receive_calls (hs : list hook) : list raw :=
  match hs with
  | [] => []
  | ReceiveCall v :: hs' => v :: receive_calls hs'
  | _ :: hs' => receive_calls hs'
  end.

(** ** Accounting, in the words of the specification *)

Section Accounting.

Variable DefaultRequired : bool.
Variable params : gmap string raw.

Definition key (f : StructField) : string := fst (NameAndArgs f).

(** A field takes part in binding when it is not embedded, is exported
    and is not skipped. *)
Definition binds (f : StructField) : bool :=
  negb (Anonymous f) && exported (Name f) && negb (String.eqb (key f) "-").

Definition required (f : StructField) : bool :=
  requiredness DefaultRequired (snd (NameAndArgs f)).

Definition absent (f : StructField) : bool :=
  match params !! key f with Some _ => false | None => true end.

(** The keys of the required fields without a parameter, in the order
    of the declarations, embedded structs spliced in place. *)
Fixpoint missing_keys (t : type) : list string :=
  match t with
  | TStruct _ _ fields =>
      flat_map
        (fun ft =>
           if Anonymous (fst ft) then missing_keys (snd ft)
           else if binds (fst ft) && required (fst ft) && absent (fst ft)
                then [key (fst ft)] else [])
        fields
  | _ => []
  end.

(** "A required field had no matching parameter", with its key. *)
Inductive required_absent : type -> string -> Prop :=
| required_absent_field name ms fields f ty :
    In (f, ty) fields ->
    binds f = true -> required f = true -> absent f = true ->
    required_absent (TStruct name ms fields) (key f)
| required_absent_embedded name ms fields f ty k :
    In (f, ty) fields ->
    Anonymous f = true -> required_absent ty k ->
    required_absent (TStruct name ms fields) k.

(** The field at a path: through embedded structs only. *)
Fixpoint field_at (p : path) (t : type) : option (StructField * type) :=
  match p, t with
  | i :: p', TStruct _ _ fields =>
      match fields !! i with
      | Some (f, ty) =>
          match p' with
          | [] => Some (f, ty)
          | _ => if Anonymous f then field_at p' ty else None
          end
      | None => None
      end
  | _, _ => None
  end.

(** The fields [DefaultValue] is meant for: bound, without a
    parameter, not required. *)
Definition defaulted (f : StructField) : bool :=
  binds f && absent f && negb (required f).

(** What one field adds to the list of missing fields. *)
Definition missing_of (ft : StructField * type) : list string :=
  if Anonymous (fst ft) then missing_keys (snd ft)
  else if binds (fst ft) && required (fst ft) && absent (fst ft)
       then [key (fst ft)] else [].

(** The field at [q] is one [DefaultValue] is meant for, and its type
    has the method. *)
Definition default_site (t : type) (q : path) : Prop :=
  exists f ty,
    field_at q t = Some (f, ty)
    /\ defaulted f = true
    /\ is_Some (method_set DefaultValue ty).

(** The calls made on the fields of index below [n] of the struct at
    [here]: each is on a field under [here], a call to [DefaultValue] is
    on a [default_site], and no field has two of them. *)
Definition calls_below (here : path) (t : type) (n : nat) (evs : list event) : Prop :=
  (forall e, In e evs ->
     exists j q, (j < n)%nat /\ event_path e = (here ++ j :: q)%list
                 /\ (forall p, e = DefaultValueCall p -> default_site t (j :: q)))
  /\ (forall p, (default_calls p evs <= 1)%nat).

Definition calls_ok (here : path) (t : type) (evs : list event) : Prop :=
  exists n, calls_below here t n evs.

End Accounting.

(** A basic kind converted by [setInt] or [setFloat]. *)
Definition numeric (k : BasicKind) : bool :=
  match k with
  | Int _ | Float32 | Float64 => true
  | _ => false
  end.

(** The list after a walk extends the list before it by a prefix of
    [added], and by all of [added] when the walk ends without error. *)
Definition extends_by (before after : MissingFields) (err : status)
    (added : list string) : Prop :=
  (exists rest, (Names before ++ added = Names after ++ rest)%list)
  /\ (err = Nil -> Names after = (Names before ++ added)%list).

(** The field and the result of [PreReceive], as [Receive] finds them:
    after the allocation behind a nil pointer and after the call to
    [PreReceive], when the type has it. *)
Definition before_receive (t : type) (field : value) : value * option error :=
  match capability PreReceive true t with
  | Some preReceiver => invoke t preReceiver tt (allocated t field)
  | None => (allocated t field, None)
  end.

(** What the hooks alone leave of a field that [Receive] finds as
    [self]: the field and the error after [Receive] and, when [Receive]
    returned nil and the type has it, after [PostReceive].  No
    conversion of the package takes part in it. *)
Definition after_receive (t : type) (receiver : method raw (option error))
    (field : value) (v : raw) (self : value) : value * option error :=
  let copy := allocated t field in
  let (field', err) := invoke_bound t receiver v copy self in
  match capability PostReceive true t, err with
  | Some postReceiver, None => invoke_bound t postReceiver tt copy field'
  | _, _ => (field', err)
  end.

(** The walk a call starts from, on a struct with one [int] field. *)
Definition start : walk := mkWalk O Nil (VStruct [VInt 0]) (mkMissingFields []) [].

(** * The rest of the package *)

(** ** Comma-separated lists ([strings.Join], and the splitting the tag
    parser amounts to) *)

(** [strings.Join(elems, sep)]. *)
Fixpoint Join (elems : list string) (sep : string) : string :=
  match elems with
  | [] => ""
  | [e] => e
  | e :: rest => e +:+ sep +:+ Join rest sep
  end.

(** The pieces of a string between its commas. *)
Fixpoint split_commas (s : string) : list string :=
  match s with
  | EmptyString => [""]
  | String c s' =>
      if Ascii.eqb c "," then "" :: split_commas s'
      else match split_commas s' with
           | piece :: pieces => String c piece :: pieces
           | [] => [String c ""]
           end
  end.

Definition nonempty (s : string) : bool := negb (String.eqb s "").

Fixpoint has_comma (s : string) : bool :=
  match s with
  | EmptyString => false
  | String c s' => Ascii.eqb c "," || has_comma s'
  end.

(** ** [MissingFields.Error] *)

Definition Error_prefix : string := "Missing value for fields: ".

(** [Error] returns the error message for a [MissingFields] error. *)
Definition Error (err : MissingFields) : string :=
  Error_prefix +:+ Join (Names err) ",".

(** ** More accounting: the keys of the bound fields *)

Section BoundKeys.

Variable params : gmap string raw.

(** The keys of the fields that take part in binding, in the order of
    the traversal, embedded structs spliced in place. *)
Fixpoint bound_keys (t : type) : list string :=
  match t with
  | TStruct _ _ fields =>
      flat_map
        (fun ft =>
           if Anonymous (fst ft) then bound_keys (snd ft)
           else if binds (fst ft) then [key (fst ft)] else [])
        fields
  | _ => []
  end.

Definition present (k : string) : bool :=
  match params !! k with Some _ => true | None => false end.

(** The bound keys that have a parameter. *)
Definition matched_keys (t : type) : list string :=
  List.filter present (bound_keys t).

(** A field the traversal has no reason to write to: not embedded, and
    either not bound, or without parameter and without default to take
    (required, or of a type without [DefaultValue]). *)
Definition left_alone (DefaultRequired : bool) (f : StructField) (ty : type) : bool :=
  negb (Anonymous f)
  && (negb (binds f)
      || (absent params f
          && (required DefaultRequired f
              || match method_set DefaultValue ty with Some _ => false | None => true end))).

End BoundKeys.

(** ** Pagination: [ParsePage] *)

(** A value of the query parameters: a [[]string], or anything else. *)
Inductive query_value :=
| QStrings (values : list string)
| QOther (v : raw).

(** [strconv.Atoi(s)]: [ParseInt(s, 10, 0)] on a platform with 64-bit
    [int], the errors bearing the name of [Atoi]. *)
Definition Atoi (s : string) : Z + error :=
  match Strconv.ParseInt s with
  | inr (NumError _ num e) => inr (NumError "Atoi" num e)
  | r => r
  end.

(** [v.([]string)[0]]: the type assertion panics on another type, the
    index on an empty slice; [None] is that panic. *)
Definition first_string (v : query_value) : option string :=
  match v with
  | QStrings (s :: _) => Some s
  | _ => None
  end.

(** The results [offset, limit, err] of [ParsePage], or its panic. *)
Inductive page_result :=
| Page (offset limit : Z) (err : option error)
| PagePanics.

(** [ParsePage] reads "page" and "page_size" from a set of parameters
    and parses them into offset and limit values.  [int] arithmetic
    wraps around at 64 bits. *)
Definition ParsePage (params : gmap string query_value) (defaultPageSize : Z)
  : page_result :=
  let limit := defaultPageSize in
  let offset := 0 in
  let page_step (limit : Z) : page_result :=
    match params !! "page" with
    | Some pageVal =>
        match first_string pageVal with
        | None => PagePanics
        | Some pageStr =>
            match Atoi pageStr with
            | inr err => Page offset limit (Some err)
            | inl page => Page (wrap_signed 64 ((page - 1) * limit)) limit None
            end
        end
    | None => Page offset limit None
    end in
  match params !! "page_size" with
  | Some sizeVal =>
      match first_string sizeVal with
      | None => PagePanics
      | Some sizeStr =>
          match Atoi sizeStr with
          | inr err => Page offset limit (Some err)
          | inl pageSize => page_step pageSize
          end
      end
  | None => page_step limit
  end.

(** ** Request bodies: [ConvertMSIToObjxMap] and [ParseParams] *)

Local Unset Elimination Schemes.

(** A parsed body: a map (a [map[string]interface{}], or an [objx.Map]
    when [objx] is true) given by its entries, a [[]interface{}], or any
    other value. *)
Inductive body_value :=
| BMap (objx : bool) (entries : list (string * body_value))
| BList (elems : list body_value)
| BLeaf (v : raw).

Local Set Elimination Schemes.

(** [ConvertMSIToObjxMap] recursively converts [map[string]interface{}]
    values to [objx.Map].  The type switch has no case for [objx.Map]:
    a map that is one already is returned as it is, with what it
    holds. *)
Fixpoint ConvertMSIToObjxMap (value : body_value) : body_value :=
  match value with
  | BMap false src =>
      BMap true (map (fun kv => (fst kv, ConvertMSIToObjxMap (snd kv))) src)
  | BMap true _ => value
  | BList src => BList (map ConvertMSIToObjxMap src)
  | BLeaf _ => value
  end.

(** No [map[string]interface{}] is left anywhere in the value. *)
Fixpoint all_objx (value : body_value) : bool :=
  match value with
  | BMap objx entries => objx && forallb (fun kv => all_objx (snd kv)) entries
  | BList elems => forallb all_objx elems
  | BLeaf _ => true
  end.

(** No [objx.Map] anywhere: what [json.Unmarshal] produces. *)
Fixpoint no_objx (value : body_value) : bool :=
  match value with
  | BMap objx entries => negb objx && forallb (fun kv => no_objx (snd kv)) entries
  | BList elems => forallb no_objx elems
  | BLeaf _ => true
  end.

(** The value with its maps all marked the same way: the keys, the
    order and the leaves. *)
Fixpoint shape (value : body_value) : body_value :=
  match value with
  | BMap _ entries => BMap true (map (fun kv => (fst kv, shape (snd kv))) entries)
  | BList elems => BList (map shape elems)
  | BLeaf _ => value
  end.

Definition nonMapBody : error := errors_New "Cannot use non-map body as params".

(** [ParseParams], from what [ParseBody] returned ([val, err]): the
    params and the error. *)
Definition ParseParams (parsed : body_value + error)
  : option (list (string * body_value)) * option error :=
  match parsed with
  | inr err => (None, Some err)
  | inl (BLeaf RNil) => (None, None)
  | inl (BMap true params) => (Some params, None)
  | inl _ => (None, Some nonMapBody)
  end.

(** ** The earlier engine (the file with [getTagAndArgs]) *)

Module Earlier.

(** [getTagAndArgs]: the response tag, else the db tag, overridden by
    the name in the request tag; the options as in [NameAndArgs]. *)
Definition getTagAndArgs (fieldType : StructField) : string * list string :=
  let tag := Get (Tag fieldType) "request" in
  let name := Get (Tag fieldType) "response" in
  let name := if String.eqb name "" then Get (Tag fieldType) "db" else name in
  let (requestName, remaining) := getNextOption tag in
  let name := if negb (String.eqb requestName "") then requestName else name in
  let args := collectArgs (String.length remaining) remaining [] in
  (name, args).

(** The [switch name] of the earlier [unmarshalToValue]: [None] for a
    field that is skipped. *)
Definition lookup_key (fieldType : StructField) : option string :=
  let name := fst (getTagAndArgs fieldType) in
  if String.eqb name "-" then None
  else if String.eqb name "" then Some (Strings.ToLower (Name fieldType))
  else Some name.

(** [required := true], and false once an "optional" is among the
    options. *)
Fixpoint requiredness (required : bool) (args : list string) : bool :=
  match args with
  | [] => required
  | arg :: args' =>
      requiredness (if String.eqb arg "optional" then false else required) args'
  end.

Section Conversion.

Variable ParseFloat : string -> spec_float + error.

(** [target.Set(reflect.ValueOf(value))] for a value that is not nil:
    the stored value, or [None] when the value is not assignable to the
    type, where [Set] panics. *)
Variable Assign : raw -> type -> option value.

(** The [switch target.Kind()] of the earlier [setValue]; [ValueOf(nil)]
    is no value, and [Set] panics on it. *)
Definition assign (canSet : bool) (t : type) (target : value) (v : raw)
  : value * status :=
  match Kind_of t with
  | Basic (Int w) => setInt canSet w target v
  | Basic Float32 => setFloat ParseFloat canSet true target v
  | Basic Float64 => setFloat ParseFloat canSet false target v
  | _ =>
      if is_nil v then (target, Panic)
      else match Assign v t with
           | Some x => store canSet target x
           | None => (target, Panic)
           end
  end.

(** The earlier [setValue]: no test for nil, no allocation behind a nil
    pointer, no hooks but [Receive]. *)
Definition setValue (canAddr : bool) (t : type) (target : value) (v : raw)
  : value * status :=
  match capability Receive canAddr t with
  | Some receiver =>
      if nil_receiver_panics t receiver target then (target, Panic)
      else let (target', err) := invoke t receiver v target in (target', status_of err)
  | None =>
      match t, target with
      | TStruct targetTypeName _ fields, VStruct vs =>
          if Strings.HasPrefix targetTypeName SqlNullablePrefix then
            let typeName :=
              Strings.drop (String.length SqlNullablePrefix) targetTypeName in
            match FieldByName fields typeName, FieldByName fields SqlNotNullField with
            | Some i, Some j =>
                match fields !! j, fields !! i with
                | Some (_, TBasic "bool" Bool _), Some (f, ft) =>
                    let vs1 := <[j := VBool (negb (is_nil v))]> vs in
                    match vs1 !! i with
                    | Some typeVal =>
                        let (typeVal', s) := assign (IsExported (Name f)) ft typeVal v in
                        (VStruct (<[i := typeVal']> vs1), s)
                    | None => (target, Panic)
                    end
                | _, _ => (target, Panic)
                end
            | _, _ => assign true t target v
            end
          else assign true t target v
      | _, _ => assign true t target v
      end
  end.

End Conversion.

End Earlier.

(** * Properties *)

(** ** Facts about tags *)

Lemma IndexRune_take s i :
  Strings.IndexRune s "," = Some i -> Strings.take i s = before_comma s.
Proof.
  revert i. induction s as [|c s IH]; intros i; simpl; [discriminate|].
  destruct (Ascii.eqb c ",") eqn:Hc.
  - intros [= <-]. reflexivity.
  - destruct (Strings.IndexRune s ",") as [j|]; [|discriminate].
    intros [= <-]. simpl. f_equal. now apply IH.
Qed.

Lemma IndexRune_none s :
  Strings.IndexRune s "," = None -> before_comma s = s.
Proof.
  induction s as [|c s IH]; simpl; [reflexivity|].
  destruct (Ascii.eqb c ","); [discriminate|].
  destruct (Strings.IndexRune s ","); [discriminate|].
  intros _. f_equal. now apply IH.
Qed.

Lemma getNextOption_name s : fst (getNextOption s) = before_comma s.
Proof.
  unfold getNextOption.
  destruct (Strings.IndexRune s ",") as [i|] eqn:Hi; simpl.
  - now apply IndexRune_take.
  - symmetry. now apply IndexRune_none.
Qed.

Lemma trimCommas_length s : (String.length (trimCommas s) <= String.length s)%nat.
Proof.
  induction s as [|c s IH]; simpl; [lia|].
  destruct (Ascii.eqb c ","); simpl; lia.
Qed.

Lemma drop_comma_shorter s i :
  Strings.IndexRune s "," = Some i ->
  (String.length (trimCommas (Strings.drop i s)) < String.length s)%nat.
Proof.
  revert i. induction s as [|c s IH]; intros i; simpl; [discriminate|].
  destruct (Ascii.eqb c ",") eqn:Hc.
  - intros [= <-]. simpl. rewrite Hc.
    pose proof (trimCommas_length s). lia.
  - destruct (Strings.IndexRune s ",") as [j|] eqn:Hj; [|discriminate].
    intros [= <-]. simpl. specialize (IH j eq_refl). lia.
Qed.

(** Every round of the loop of [NameAndArgs] shortens [remaining]. *)
Lemma getNextOption_shorter s :
  s <> "" -> (String.length (snd (getNextOption s)) < String.length s)%nat.
Proof.
  intros Hs. unfold getNextOption.
  destruct (Strings.IndexRune s ",") as [i|] eqn:Hi; simpl.
  - now apply drop_comma_shorter.
  - destruct s; [congruence | simpl; lia].
Qed.

(** More fuel than the length of [remaining] changes nothing: the loop
    has ended before the fuel runs out. *)
Lemma collectArgs_fuel n remaining args :
  (String.length remaining <= n)%nat ->
  collectArgs n remaining args = collectArgs (String.length remaining) remaining args.
Proof.
  revert remaining args.
  induction n as [n IH] using lt_wf_ind. intros remaining args Hn.
  destruct remaining as [|c r].
  - destruct n; reflexivity.
  - destruct n as [|n]; [simpl in Hn; lia|].
    cbn [collectArgs String.length].
    change (String.eqb (String c r) "") with false. cbv iota.
    pose proof (getNextOption_shorter (String c r) ltac:(discriminate)) as Hs.
    destruct (getNextOption (String c r)) as [next remaining'].
    simpl in Hs, Hn.
    rewrite (IH n) by lia.
    rewrite (IH (String.length r)) by lia.
    reflexivity.
Qed.

Lemma NameAndArgs_key (f : StructField) : fst (NameAndArgs f) = key_by_precedence f.
Proof.
  unfold NameAndArgs, key_by_precedence, request_name, db_candidate.
  rewrite <- getNextOption_name.
  destruct (getNextOption (Get (Tag f) "request")) as [name remaining].
  cbn [fst first_nonempty].
  destruct (String.eqb name "") eqn:Hname; cbn [negb]; [|reflexivity].
  destruct (String.eqb (Get (Tag f) "response") "") eqn:Hresp; cbn [negb]; [|reflexivity].
  assert (Hlast : forall l : string, l = if String.eqb l "" then "" else l).
  { intros l. destruct (String.eqb l "") eqn:E; [now apply String.eqb_eq in E | reflexivity]. }
  destruct (String.eqb (Get (Tag f) "db") "-") eqn:Hdash.
  - apply String.eqb_eq in Hdash. rewrite Hdash. cbn. apply Hlast.
  - destruct (String.eqb (Get (Tag f) "db") "") eqn:Hdb; cbn [negb andb fst].
    + apply Hlast.
    + reflexivity.
Qed.

Section Properties.

Variable ParseFloat : string -> spec_float + error.
Variable Convert : raw -> type -> option value.
Variable DefaultRequired : bool.
Variable params : gmap string raw.

(** *** The equations of the definitions *)


Lemma visit_eq rec here i fieldType ty w :
  visit ParseFloat Convert DefaultRequired params rec here i fieldType ty w
  = match Field (target w) i with
    | None => mkWalk (matchedFields w) Panic (target w) (missingErr w) (calls w)
    | Some field =>
        if Anonymous fieldType then
          let r := rec ty field (missingErr w) (here ++ [i])%list in
          mkWalk (matchedFields w + matchedFields r) (parseErr r)
                 (SetField (target w) i (target r)) (missingErr r)
                 (calls w ++ calls r)%list
        else if exported (Name fieldType) then
          let (name, args) := NameAndArgs fieldType in
          if String.eqb name "-" then w
          else
            let required := requiredness DefaultRequired args in
            match params !! name with
            | Some v =>
                let r := setValue ParseFloat Convert true ty field v in
                mkWalk (matchedFields w + 1) (sv_err r)
                       (SetField (target w) i (sv_target r)) (missingErr w)
                       (calls w ++ map (HookCall (here ++ [i])%list) (sv_calls r))%list
            | None =>
                if required then
                  mkWalk (matchedFields w) (parseErr w) (target w)
                         (AddMissingField (missingErr w) name) (calls w)
                else
                  match method_set DefaultValue ty with
                  | Some defaulter =>
                      if nil_receiver_panics ty defaulter field then
                        mkWalk (matchedFields w) Panic (target w) (missingErr w) (calls w)
                      else
                        let (field', dv) := invoke ty defaulter tt field in
                        let r := setValue ParseFloat Convert true ty field' dv in
                        mkWalk (matchedFields w)
                               (match sv_err r with Panic => Panic | _ => parseErr w end)
                               (SetField (target w) i (sv_target r)) (missingErr w)
                               (calls w ++ DefaultValueCall (here ++ [i])%list
                                  :: map (HookCall (here ++ [i])%list) (sv_calls r))%list
                  | None => w
                  end
            end
        else w
    end.
Proof. reflexivity. Qed.

Lemma fields_loop_nil rec here i w :
  fields_loop ParseFloat Convert DefaultRequired params rec here [] i w = w.
Proof. reflexivity. Qed.

Lemma fields_loop_eq rec here f ty rest i w :
  fields_loop ParseFloat Convert DefaultRequired params rec here ((f, ty) :: rest) i w
  = match parseErr w with
    | Nil =>
        fields_loop ParseFloat Convert DefaultRequired params rec here rest (S i)
          (visit ParseFloat Convert DefaultRequired params rec here i f ty w)
    | _ => w
    end.
Proof. reflexivity. Qed.

Lemma unmarshalToValue_struct name ms fields targetValue m here :
  unmarshalToValue ParseFloat Convert DefaultRequired params
    (TStruct name ms fields) targetValue m here
  = fields_loop ParseFloat Convert DefaultRequired params
      (unmarshalToValue ParseFloat Convert DefaultRequired params) here fields O
      (mkWalk O Nil targetValue m []).
Proof. reflexivity. Qed.

Lemma unmarshalToValue_not_struct t targetValue m here :
  Kind_of t <> Struct ->
  unmarshalToValue ParseFloat Convert DefaultRequired params t targetValue m here
  = mkWalk O Panic targetValue m [].
Proof. destruct t; simpl; congruence. Qed.

Lemma UnmarshalParams_eq targetType targetValue :
  UnmarshalParams ParseFloat Convert DefaultRequired params targetType targetValue
  = conclude params
      (unmarshalToValue ParseFloat Convert DefaultRequired params
         targetType targetValue (mkMissingFields []) []).
Proof. reflexivity. Qed.

Lemma UnmarshalParams_walk_eq targetType targetValue :
  UnmarshalParams_walk ParseFloat Convert DefaultRequired params targetType targetValue
  = unmarshalToValue ParseFloat Convert DefaultRequired params
      targetType targetValue (mkMissingFields []) [].
Proof. reflexivity. Qed.

Lemma setValue_eq canAddr t target v :
  setValue ParseFloat Convert canAddr t target v
  = if is_nil v then
      match Kind_of t with
      | Ptr => mkSet (if IsNil target then target else Zero t) Nil []
      | _ => mkSet target (Failed (errors_New "Cannot set non-pointer value to null")) []
      end
    else
      let copy := allocated t target in
      let convert (target : value) : set_result :=
        match capability Receive canAddr t with
        | Some receiver =>
            let (target', err) := invoke_bound t receiver v copy target in
            and_then [ReceiveCall v]
              (deferred t copy (capability PostReceive canAddr t)
                 (target', status_of err))
        | None =>
            deferred t copy (capability PostReceive canAddr t)
              (builtin ParseFloat Convert t target v)
        end in
      match capability PreReceive canAddr t with
      | Some preReceiver =>
          let (target', err) := invoke t preReceiver tt copy in
          match err with
          | Some e => mkSet target' (Failed e) [PreReceiveCall]
          | None => and_then [PreReceiveCall] (convert target')
          end
      | None => convert copy
      end.
Proof. reflexivity. Qed.

Local Notation "'visit'" := (visit ParseFloat Convert DefaultRequired params).
Local Notation "'fields_loop'" := (fields_loop ParseFloat Convert DefaultRequired params).
Local Notation "'unmarshalToValue'" := (unmarshalToValue ParseFloat Convert DefaultRequired params).
Local Notation "'UnmarshalParams_walk'" := (UnmarshalParams_walk ParseFloat Convert DefaultRequired params).
Local Notation "'UnmarshalParams'" := (UnmarshalParams ParseFloat Convert DefaultRequired params).
Local Notation "'setValue'" := (setValue ParseFloat Convert).

(** *** The loop *)

Lemma fields_loop_stopped rec here fields i w :
  parseErr w <> Nil -> fields_loop rec here fields i w = w.
Proof.
  intros Hw. destruct fields as [|[f ty] rest]; [reflexivity|].
  rewrite fields_loop_eq. destruct (parseErr w); congruence.
Qed.

Lemma fields_loop_app rec here pre post i w :
  fields_loop rec here (pre ++ post) i w
  = fields_loop rec here post (i + length pre) (fields_loop rec here pre i w).
Proof.
  revert i w. induction pre as [|[f ty] pre IH]; intros i w.
  - simpl. f_equal. lia.
  - cbn [app length]. rewrite !fields_loop_eq.
    destruct (parseErr w) eqn:Hw.
    + rewrite IH. f_equal. lia.
    + rewrite fields_loop_stopped by congruence. reflexivity.
    + rewrite fields_loop_stopped by congruence. reflexivity.
Qed.

Lemma fields_loop_cons rec here f ty rest i w :
  parseErr w = Nil ->
  fields_loop rec here ((f, ty) :: rest) i w
  = fields_loop rec here rest (S i) (visit rec here i f ty w).
Proof. intros Hw. rewrite fields_loop_eq. now rewrite Hw. Qed.

(** *** One field *)

Lemma visit_embedded rec here i f ty w field :
  Field (target w) i = Some field -> Anonymous f = true ->
  visit rec here i f ty w
  = let r := rec ty field (missingErr w) (here ++ [i])%list in
    mkWalk (matchedFields w + matchedFields r) (parseErr r)
           (SetField (target w) i (target r)) (missingErr r)
           (calls w ++ calls r)%list.
Proof. intros Hf Ha. rewrite visit_eq. now rewrite Hf, Ha. Qed.

Lemma visit_unexported rec here i f ty w :
  Anonymous f = false -> exported (Name f) = false ->
  is_Some (Field (target w) i) ->
  visit rec here i f ty w = w.
Proof.
  intros Ha He [field Hf]. rewrite visit_eq. now rewrite Hf, Ha, He.
Qed.

Lemma visit_skipped rec here i f ty w :
  Anonymous f = false -> key f = "-" ->
  is_Some (Field (target w) i) ->
  visit rec here i f ty w = w.
Proof.
  intros Ha Hk [field Hf]. unfold key in *. rewrite visit_eq, Hf, Ha.
  destruct (exported (Name f)); [|reflexivity].
  destruct (NameAndArgs f) as [name args]. simpl in Hk. now rewrite Hk.
Qed.

Lemma visit_present rec here i f ty w field v :
  Field (target w) i = Some field ->
  binds f = true -> params !! key f = Some v ->
  visit rec here i f ty w
  = let r := setValue true ty field v in
    mkWalk (matchedFields w + 1) (sv_err r)
           (SetField (target w) i (sv_target r)) (missingErr w)
           (calls w ++ map (HookCall (here ++ [i])%list) (sv_calls r))%list.
Proof.
  intros Hf Hb Hv. unfold binds, key in *.
  apply andb_prop in Hb as [Hb Hk]. apply andb_prop in Hb as [Ha He].
  apply negb_true_iff in Ha, Hk.
  rewrite visit_eq, Hf, Ha, He.
  destruct (NameAndArgs f) as [name args]. simpl in Hk, Hv.
  now rewrite Hk, Hv.
Qed.

Lemma visit_absent_required rec here i f ty w :
  is_Some (Field (target w) i) ->
  binds f = true -> absent params f = true -> required DefaultRequired f = true ->
  visit rec here i f ty w
  = mkWalk (matchedFields w) (parseErr w) (target w)
           (AddMissingField (missingErr w) (key f)) (calls w).
Proof.
  intros [field Hf] Hb Hv Hr. unfold binds, absent, required, key in *.
  apply andb_prop in Hb as [Hb Hk]. apply andb_prop in Hb as [Ha He].
  apply negb_true_iff in Ha, Hk.
  rewrite visit_eq, Hf, Ha, He.
  destruct (NameAndArgs f) as [name args]. simpl in Hk, Hv, Hr.
  rewrite Hk. destruct (params !! name); [discriminate|]. now rewrite Hr.
Qed.

Lemma visit_absent_optional rec here i f ty w field :
  Field (target w) i = Some field ->
  defaulted DefaultRequired params f = true ->
  visit rec here i f ty w
  = match method_set DefaultValue ty with
    | Some defaulter =>
        if nil_receiver_panics ty defaulter field then
          mkWalk (matchedFields w) Panic (target w) (missingErr w) (calls w)
        else
          let (field', dv) := invoke ty defaulter tt field in
          let r := setValue true ty field' dv in
          mkWalk (matchedFields w)
                 (match sv_err r with Panic => Panic | _ => parseErr w end)
                 (SetField (target w) i (sv_target r)) (missingErr w)
                 (calls w ++ DefaultValueCall (here ++ [i])%list
                    :: map (HookCall (here ++ [i])%list) (sv_calls r))%list
    | None => w
    end.
Proof.
  intros Hf Hd. unfold defaulted, binds, absent, required, key in *.
  apply andb_prop in Hd as [Hd Hr]. apply andb_prop in Hd as [Hb Hv].
  apply andb_prop in Hb as [Hb Hk]. apply andb_prop in Hb as [Ha He].
  apply negb_true_iff in Ha, Hk, Hr.
  rewrite visit_eq, Hf, Ha, He.
  destruct (NameAndArgs f) as [name args]. simpl in Hk, Hv, Hr.
  rewrite Hk. destruct (params !! name); [discriminate|]. now rewrite Hr.
Qed.

(** A field is of one of five sorts. *)
Lemma field_cases f :
  Anonymous f = true
  \/ (Anonymous f = false /\ exported (Name f) = false)
  \/ (Anonymous f = false /\ exported (Name f) = true /\ key f = "-")
  \/ (binds f = true /\ exists v, params !! key f = Some v)
  \/ (binds f = true /\ absent params f = true).
Proof.
  unfold binds, absent.
  destruct (Anonymous f); [now left|right].
  destruct (exported (Name f)); [right|now left].
  destruct (String.eqb (key f) "-") eqn:Hk.
  - left. apply String.eqb_eq in Hk. auto.
  - right. simpl. destruct (params !! key f) as [v|]; [left|right]; eauto.
Qed.

(** The lower-cased name of an exported field is never ["-"]. *)
Lemma exported_lower_not_dash name :
  exported name = true -> Strings.ToLower name <> "-".
Proof.
  destruct name as [|c name]; [discriminate|]. simpl. intros Hc Heq.
  injection Heq as Hlow _. revert Hc Hlow.
  destruct c as [[] [] [] [] [] [] [] []]; vm_compute; intros; congruence.
Qed.

(** *** The outcome of a call *)

(** C1.  The outcome of [UnmarshalParams] is settled in this order.
    An error of the conversion of a matched field (or of the traversal
    of an embedded struct) stops the loop over the fields: the fields
    after it are not visited, and the walk ends in the state the failing
    field left.  The error of a matched field is the error [setValue]
    returned for it, the error of an embedded struct is the error of
    its own traversal, and that error is what the call returns.  Without
    an error, fewer matched fields than parameters give the error "More
    parameters passed than this model has fields."; otherwise a
    non-empty list of missing fields is returned as a [MissingFields];
    otherwise the call returns nil. *)
Theorem UnmarshalParams_outcome_priority :
  (forall rec here pre f ty post i w e,
      parseErr (fields_loop rec here pre i w) = Nil ->
      parseErr (visit rec here (i + length pre) f ty (fields_loop rec here pre i w))
      = Failed e ->
      fields_loop rec here (pre ++ (f, ty) :: post) i w
      = visit rec here (i + length pre) f ty (fields_loop rec here pre i w))
  /\ (forall rec here i f ty w field v,
        Field (target w) i = Some field ->
        binds f = true -> params !! key f = Some v ->
        parseErr (visit rec here i f ty w) = sv_err (setValue true ty field v))
  /\ (forall rec here i f ty w field,
        Field (target w) i = Some field -> Anonymous f = true ->
        parseErr (visit rec here i f ty w)
        = parseErr (rec ty field (missingErr w) (here ++ [i])%list))
  /\ (forall targetType targetValue,
        let w := UnmarshalParams_walk targetType targetValue in
        (forall e, parseErr w = Failed e ->
                   UnmarshalParams targetType targetValue = Returns (Some e))
        /\ (parseErr w = Nil -> (matchedFields w < size params)%nat ->
            UnmarshalParams targetType targetValue = Returns (Some moreParameters))
        /\ (parseErr w = Nil -> (size params <= matchedFields w)%nat ->
            Names (missingErr w) <> [] ->
            UnmarshalParams targetType targetValue
            = Returns (Some (MissingFieldsError (missingErr w))))
        /\ (parseErr w = Nil -> (size params <= matchedFields w)%nat ->
            Names (missingErr w) = [] ->
            UnmarshalParams targetType targetValue = Returns None)).
Proof.
  split; [|split; [|split]].
  - intros rec here pre f ty post i w e Hpre Hf.
    rewrite fields_loop_app, fields_loop_cons by assumption.
    apply fields_loop_stopped. rewrite Hf. discriminate.
  - intros rec here i f ty w field v Hfield Hb Hv.
    now rewrite (visit_present rec here i f ty w field v).
  - intros rec here i f ty w field Hfield Ha.
    now rewrite (visit_embedded rec here i f ty w field).
  - intros targetType targetValue w.
    rewrite UnmarshalParams_eq, <- UnmarshalParams_walk_eq. fold w.
    unfold conclude.
    repeat split.
    + intros e ->. reflexivity.
    + intros -> Hlt. apply Nat.ltb_lt in Hlt. now rewrite Hlt.
    + intros -> Hle Hm. apply Nat.ltb_ge in Hle. rewrite Hle.
      unfold HasMissingFields. destruct (Names (missingErr w)); [congruence|reflexivity].
    + intros -> Hle Hm. apply Nat.ltb_ge in Hle. rewrite Hle.
      unfold HasMissingFields. now rewrite Hm.
Qed.

(** *** Skipped fields *)


(** *** Fields of a basic type without hooks *)

Lemma capability_basic_none {A R} (sel : methods -> option (method A R))
    canAddr name k ms :
  sel ms = None -> capability sel canAddr (TBasic name k ms) = None.
Proof.
  intros H. unfold capability, method_set, method_set_addr. cbn.
  rewrite H. now destruct canAddr.
Qed.

Lemma builtin_basic name k ms target v :
  builtin ParseFloat Convert (TBasic name k ms) target v
  = assign ParseFloat Convert true (TBasic name k ms) target v.
Proof. reflexivity. Qed.

Lemma setValue_plain canAddr name k dv field v :
  is_nil v = false ->
  setValue canAddr (TBasic name k (mkMethods None None None dv)) field v
  = let (x, s) := assign ParseFloat Convert true
                         (TBasic name k (mkMethods None None None dv)) field v in
    mkSet x s [].
Proof.
  intros Hv. rewrite setValue_eq, Hv. cbv zeta.
  rewrite !capability_basic_none by reflexivity.
  rewrite builtin_basic. unfold allocated, deferred.
  now destruct (assign _ _ _ _ _ _).
Qed.

Lemma wrap_signed_small w x :
  -128 <= x < 128 -> wrap_signed (bits w) x = x.
Proof.
  intros Hx. unfold wrap_signed.
  assert (H : forall n, 8 <= n -> (x + 2 ^ (n - 1)) mod 2 ^ n = x + 2 ^ (n - 1)).
  { intros n Hn. apply Z.mod_small.
    assert (2 ^ 7 <= 2 ^ (n - 1)) by (apply Z.pow_le_mono_r; lia).
    replace (2 ^ n) with (2 * 2 ^ (n - 1))
      by (rewrite <- Z.pow_succ_r by lia; f_equal; lia).
    change (2 ^ 7) with 128 in *. lia. }
  rewrite H by (destruct w; simpl; lia). lia.
Qed.

Lemma SetField_same targetValue i field :
  Field targetValue i = Some field -> SetField targetValue i field = targetValue.
Proof.
  destruct targetValue; simpl; try reflexivity.
  intros H. f_equal. now apply list_insert_id.
Qed.

(** The walk over a struct with a single field. *)
Lemma single_field_walk sname sms f ty x m here :
  unmarshalToValue (TStruct sname sms [(f, ty)]) (VStruct [x]) m here
  = visit unmarshalToValue here O f ty (mkWalk O Nil (VStruct [x]) m []).
Proof.
  rewrite unmarshalToValue_struct, fields_loop_eq. cbn [parseErr].
  now rewrite fields_loop_nil.
Qed.

Lemma setInt_17 canSet width field :
  setInt canSet width field (RString "17")
  = store canSet field (VInt 17).
Proof.
  unfold setInt. change (Strconv.ParseInt "17") with (@inl Z error 17).
  cbv beta iota. now rewrite wrap_signed_small by lia.
Qed.

Lemma setInt_abc canSet width field :
  setInt canSet width field (RString "abc")
  = (field, Failed (NumError "ParseInt" "abc" ErrSyntax)).
Proof. reflexivity. Qed.

Lemma visit_single_field_present sname sms f ty field v :
  binds f = true -> params !! key f = Some v ->
  UnmarshalParams_walk (TStruct sname sms [(f, ty)]) (VStruct [field])
  = let r := setValue true ty field v in
    mkWalk 1 (sv_err r) (VStruct [sv_target r]) (mkMissingFields [])
           (map (HookCall [O]) (sv_calls r)).
Proof.
  intros Hb Hv. rewrite UnmarshalParams_walk_eq, single_field_walk.
  now rewrite (visit_present _ _ _ _ _ _ field v).
Qed.

(** *** Integers from strings *)

(** C8, amended.  A field of a signed integer kind ([int], [int8],
    [int16], [int32], [int64]: the kinds [setValue] hands to [setInt]),
    of a type without hooks, whose key is present: the string "17" is
    parsed in base 10 and the field becomes 17, without error; the
    string "abc" is a conversion error (the syntax error of
    [strconv.ParseInt]), the field is left as it was, and the call
    returns that error. *)
Theorem integer_field_from_string tname width dv :
  let t := TBasic tname (Int width) (mkMethods None None None dv) in
  (forall canAddr field,
      setValue canAddr t field (RString "17") = mkSet (VInt 17) Nil []
      /\ setValue canAddr t field (RString "abc")
         = mkSet field (Failed (NumError "ParseInt" "abc" ErrSyntax)) [])
  /\ (forall rec here i f wk field,
        Field (target wk) i = Some field -> binds f = true ->
        (params !! key f = Some (RString "17") ->
         visit rec here i f t wk
         = mkWalk (matchedFields wk + 1) Nil (SetField (target wk) i (VInt 17))
                  (missingErr wk) (calls wk))
        /\ (params !! key f = Some (RString "abc") ->
            visit rec here i f t wk
            = mkWalk (matchedFields wk + 1)
                     (Failed (NumError "ParseInt" "abc" ErrSyntax))
                     (target wk) (missingErr wk) (calls wk)))
  /\ (forall sname sms f field,
        binds f = true ->
        (params !! key f = Some (RString "abc") ->
         UnmarshalParams (TStruct sname sms [(f, t)]) (VStruct [field])
         = Returns (Some (NumError "ParseInt" "abc" ErrSyntax)))
        /\ (params !! key f = Some (RString "17") -> size params = 1%nat ->
            UnmarshalParams (TStruct sname sms [(f, t)]) (VStruct [field])
            = Returns None
            /\ target (UnmarshalParams_walk (TStruct sname sms [(f, t)]) (VStruct [field]))
               = VStruct [VInt 17])).
Proof.
  intros t.
  assert (H17 : forall canAddr field,
             setValue canAddr t field (RString "17") = mkSet (VInt 17) Nil []).
  { intros. unfold t. rewrite setValue_plain by reflexivity.
    unfold assign. cbn [Kind_of]. now rewrite setInt_17. }
  assert (Habc : forall canAddr field,
             setValue canAddr t field (RString "abc")
             = mkSet field (Failed (NumError "ParseInt" "abc" ErrSyntax)) []).
  { intros. unfold t. rewrite setValue_plain by reflexivity.
    unfold assign. cbn [Kind_of]. now rewrite setInt_abc. }
  split; [|split].
  - intros canAddr field. split; [apply H17 | apply Habc].
  - intros rec here i f wk field Hfield Hb. split; intros Hv.
    + rewrite (visit_present rec here i f t wk field _ Hfield Hb Hv).
      cbv zeta. rewrite H17. cbn. now rewrite app_nil_r.
    + rewrite (visit_present rec here i f t wk field _ Hfield Hb Hv).
      cbv zeta. rewrite Habc. cbn. rewrite app_nil_r.
      now rewrite SetField_same.
  - intros sname sms f field Hb. split.
    + intros Hv. rewrite UnmarshalParams_eq, <- UnmarshalParams_walk_eq.
      rewrite (visit_single_field_present _ _ _ _ _ _ Hb Hv).
      cbv zeta. now rewrite Habc.
    + intros Hv Hsize.
      rewrite UnmarshalParams_eq, <- UnmarshalParams_walk_eq.
      rewrite (visit_single_field_present _ _ _ _ _ _ Hb Hv).
      cbv zeta. rewrite H17. unfold conclude. cbn. now rewrite Hsize.
Qed.

(** *** Raw values the numeric helpers have no case for *)

(** C10, amended.  When the raw value is of none of the types [setInt]
    and [setFloat] switch on (a bool or an unsigned integer, for
    example), both helpers return no error and leave the target as it
    is.  So a field of a signed integer or floating-point kind (the
    kinds [setValue] hands to the helpers), of a type without hooks,
    matched by such a parameter counts as matched, keeps its value, and
    a call with that single parameter returns nil. *)
Theorem unsupported_raw_is_ignored (v : raw) :
  unsupported v = true ->
  (forall canSet width field, setInt canSet width field v = (field, Nil))
  /\ (forall canSet single field,
        setFloat ParseFloat canSet single field v = (field, Nil))
  /\ (forall tname k dv,
        numeric k = true ->
        let t := TBasic tname k (mkMethods None None None dv) in
        (forall canAddr field, setValue canAddr t field v = mkSet field Nil [])
        /\ (forall rec here i f wk field,
              Field (target wk) i = Some field -> binds f = true ->
              params !! key f = Some v ->
              visit rec here i f t wk
              = mkWalk (matchedFields wk + 1) Nil (target wk)
                       (missingErr wk) (calls wk))
        /\ (forall sname sms f field,
              binds f = true -> params !! key f = Some v -> size params = 1%nat ->
              UnmarshalParams (TStruct sname sms [(f, t)]) (VStruct [field])
              = Returns None
              /\ target (UnmarshalParams_walk (TStruct sname sms [(f, t)])
                                              (VStruct [field]))
                 = VStruct [field])).
Proof.
  intros Hv.
  assert (Hint : forall canSet width field, setInt canSet width field v = (field, Nil))
    by (intros; destruct v; try discriminate; reflexivity).
  assert (Hfloat : forall canSet single field,
             setFloat ParseFloat canSet single field v = (field, Nil))
    by (intros; destruct v; try discriminate; reflexivity).
  split; [exact Hint | split; [exact Hfloat|]].
  intros tname k dv Hk t.
  assert (Hset : forall canAddr field, setValue canAddr t field v = mkSet field Nil []).
  { intros. unfold t. rewrite setValue_plain by (destruct v; try discriminate; reflexivity).
    unfold assign. cbn [Kind_of].
    destruct k; try discriminate; rewrite ?Hint, ?Hfloat; reflexivity. }
  split; [exact Hset | split].
  - intros rec here i f wk field Hfield Hb Hpresent.
    rewrite (visit_present rec here i f t wk field _ Hfield Hb Hpresent).
    cbv zeta. rewrite Hset. cbn. rewrite app_nil_r.
    now rewrite SetField_same.
  - intros sname sms f field Hb Hpresent Hsize.
    rewrite UnmarshalParams_eq, <- UnmarshalParams_walk_eq.
    rewrite (visit_single_field_present _ _ _ _ _ _ Hb Hpresent).
    cbv zeta. rewrite Hset. unfold conclude. cbn. now rewrite Hsize.
Qed.

(** *** The list of missing fields *)

Local Notation "'missing_keys'" := (missing_keys DefaultRequired params).
Local Notation "'required_absent'" := (required_absent DefaultRequired params).

Lemma missing_keys_struct name ms fields :
  missing_keys (TStruct name ms fields) = flat_map (missing_of DefaultRequired params) fields.
Proof. reflexivity. Qed.

Lemma extends_by_refl m err : extends_by m m err [].
Proof.
  split; [exists []; reflexivity|]. intros _. now rewrite app_nil_r.
Qed.

Lemma visit_missing rec here i f ty w :
  (forall field m p,
      let r := rec ty field m p in
      extends_by m (missingErr r) (parseErr r) (missing_keys ty)) ->
  let w' := visit rec here i f ty w in
  extends_by (missingErr w) (missingErr w') (parseErr w') (missing_of DefaultRequired params (f, ty)).
Proof.
  intros Hrec w'. subst w'. unfold missing_of. cbn [fst snd].
  destruct (Field (target w) i) as [field|] eqn:Hfield.
  2:{ rewrite visit_eq, Hfield. cbn. split; [eexists; reflexivity | discriminate]. }
  destruct (field_cases f) as [Ha|[[Ha He]|[[Ha [He Hk]]|[[Hb [v Hv]]|[Hb Hv]]]]].
  - rewrite (visit_embedded rec here i f ty w field) by assumption.
    rewrite Ha. cbv zeta. cbn [missingErr parseErr]. apply Hrec.
  - rewrite visit_unexported by eauto.
    unfold binds. rewrite Ha, He. cbn. apply extends_by_refl.
  - rewrite visit_skipped by eauto.
    unfold binds. rewrite Ha, He, Hk. cbn. apply extends_by_refl.
  - rewrite (visit_present rec here i f ty w field v) by assumption.
    assert (Ha : Anonymous f = false).
    { unfold binds in Hb. now destruct (Anonymous f). }
    rewrite Ha. unfold absent. rewrite Hv, !andb_false_r.
    cbv zeta. cbn [missingErr parseErr]. apply extends_by_refl.
  - assert (Ha : Anonymous f = false).
    { unfold binds in Hb. now destruct (Anonymous f). }
    rewrite Ha, Hb, Hv.
    destruct (required DefaultRequired f) eqn:Hr; cbn [andb].
    + rewrite visit_absent_required by eauto.
      cbn [missingErr parseErr AddMissingField Names].
      split; [exists []; now rewrite app_nil_r | reflexivity].
    + rewrite (visit_absent_optional rec here i f ty w field) by
        (try assumption; unfold defaulted; now rewrite Hb, Hv, Hr).
      destruct (method_set DefaultValue ty) as [defaulter|];
        [destruct (nil_receiver_panics ty defaulter field);
         [|destruct (invoke ty defaulter tt field)]|];
        apply extends_by_refl.
Qed.

Lemma extends_by_trans m1 m2 m3 err2 err3 a b :
  extends_by m1 m2 err2 a ->
  (err2 = Nil -> extends_by m2 m3 err3 b) ->
  (err2 <> Nil -> m3 = m2 /\ err3 = err2) ->
  extends_by m1 m3 err3 (a ++ b).
Proof.
  intros [[r1 H1] H1'] H2 H3.
  assert (err2 = Nil \/ err2 <> Nil) as [E|E]
    by (destruct err2; auto; right; discriminate).
  - destruct (H2 E) as [[r2 H2a] H2b]. specialize (H1' E). split.
    + exists r2. now rewrite app_assoc, <- H1', H2a.
    + intros E3. now rewrite (H2b E3), H1', app_assoc.
  - destruct (H3 E) as [-> ->]. split.
    + exists (r1 ++ b)%list. now rewrite !app_assoc, H1.
    + intros E3. congruence.
Qed.

Lemma fields_loop_missing rec here fields i w :
  (forall ty, In ty (map snd fields) ->
     forall field m p,
       let r := rec ty field m p in
       extends_by m (missingErr r) (parseErr r) (missing_keys ty)) ->
  parseErr w = Nil ->
  let w' := fields_loop rec here fields i w in
  extends_by (missingErr w) (missingErr w') (parseErr w') (flat_map (missing_of DefaultRequired params) fields).
Proof.
  revert i w. induction fields as [|[f ty] rest IH]; intros i w Hrec Hw w'; subst w'.
  - rewrite fields_loop_nil. apply extends_by_refl.
  - rewrite fields_loop_cons by assumption. cbn [flat_map].
    eapply extends_by_trans.
    + apply visit_missing. apply Hrec. now left.
    + intros E. apply IH; [|exact E].
      intros ty' Hin. apply Hrec. now right.
    + intros E. now rewrite fields_loop_stopped.
Qed.

Lemma unmarshalToValue_missing t :
  forall field m p,
    let r := unmarshalToValue t field m p in
    extends_by m (missingErr r) (parseErr r) (missing_keys t).
Proof.
  induction t as [name k ms | elem _ | name ms fields IH] using type_ind;
    intros field m p r; subst r.
  - rewrite unmarshalToValue_not_struct by discriminate. apply extends_by_refl.
  - rewrite unmarshalToValue_not_struct by discriminate. apply extends_by_refl.
  - rewrite unmarshalToValue_struct, missing_keys_struct.
    apply (fields_loop_missing _ p fields O (mkWalk O Nil field m [])); [|reflexivity].
    intros ty Hin. apply list_elem_of_In, list_elem_of_fmap in Hin as [[f ty'] [-> Hin]].
    rewrite Forall_forall in IH. apply (IH (f, ty')), Hin.
Qed.

Lemma missing_keys_required_absent t k :
  In k (missing_keys t) <-> required_absent t k.
Proof.
  split.
  - revert k.
    induction t as [name kd ms | elem _ | name ms fields IH] using type_ind;
      intros k; try (intros []).
    rewrite missing_keys_struct, in_flat_map. intros [[f ty] [Hin Hk]].
    unfold missing_of in Hk. cbn [fst snd] in Hk.
    destruct (Anonymous f) eqn:Ha.
    + eapply required_absent_embedded; eauto.
      rewrite Forall_forall in IH. apply (IH (f, ty)); [|exact Hk].
      now apply list_elem_of_In.
    + destruct (binds f && required DefaultRequired f && absent params f) eqn:E;
        [|destruct Hk].
      destruct Hk as [<-|[]].
      apply andb_prop in E as [E Hv]. apply andb_prop in E as [Hb Hr].
      eapply required_absent_field; eauto.
  - induction 1 as [name ms fields f ty Hin Hb Hr Hv
                   | name ms fields f ty k Hin Ha _ IH].
    + rewrite missing_keys_struct, in_flat_map. exists (f, ty). split; [exact Hin|].
      unfold missing_of. cbn [fst snd].
      assert (Ha : Anonymous f = false).
      { unfold binds in Hb. now destruct (Anonymous f). }
      rewrite Ha, Hb, Hr, Hv. now left.
    + rewrite missing_keys_struct, in_flat_map. exists (f, ty). split; [exact Hin|].
      unfold missing_of. cbn [fst snd]. now rewrite Ha.
Qed.

(** C7.  The list of missing fields holds, in the order of the
    traversal, resolved keys of required fields (exported, not skipped)
    that have no parameter.  After a traversal that went through (no
    error stopped it) it holds all of them, so it is non-empty exactly
    when at least one required field had no matching parameter. *)
Theorem missing_fields_exactly_required_absent t v :
  let w := UnmarshalParams_walk t v in
  (forall k, In k (Names (missingErr w)) -> required_absent t k)
  /\ (parseErr w = Nil ->
      Names (missingErr w) = missing_keys t
      /\ (HasMissingFields (missingErr w) = true <-> exists k, required_absent t k)).
Proof.
  intros w. subst w. rewrite UnmarshalParams_walk_eq.
  destruct (unmarshalToValue_missing t v (mkMissingFields []) []) as [[rest Hpre] Hall].
  cbn [Names app] in Hpre, Hall. split.
  - intros k Hk. apply missing_keys_required_absent.
    rewrite Hpre. apply in_or_app. now left.
  - intros Hok. specialize (Hall Hok). split; [exact Hall|].
    unfold HasMissingFields. rewrite Hall. split.
    + destruct (missing_keys t) as [|k ks] eqn:E; [discriminate|].
      intros _. exists k. apply missing_keys_required_absent. rewrite E. now left.
    + intros [k Hk]. apply missing_keys_required_absent in Hk.
      destruct (missing_keys t); [destruct Hk | reflexivity].
Qed.

(** *** Calls to [DefaultValue] *)

Lemma default_calls_app p a b :
  default_calls p (a ++ b) = (default_calls p a + default_calls p b)%nat.
Proof.
  induction a as [|[q h|q] a IH]; cbn [app default_calls]; [reflexivity|exact IH|].
  rewrite IH. lia.
Qed.

Lemma default_calls_In p evs :
  (0 < default_calls p evs)%nat <-> In (DefaultValueCall p) evs.
Proof.
  induction evs as [|[q h|q] evs IH]; cbn [default_calls In].
  - split; [lia | tauto].
  - rewrite IH. split; [tauto | intros [H|H]; [discriminate | exact H]].
  - destruct (decide (p = q)) as [->|Hne].
    + split; [now left | lia].
    + rewrite <- IH. split; [intros H; right; lia|].
      intros [H|H]; [congruence | lia].
Qed.

Lemma default_calls_hooks p q hs : default_calls p (map (HookCall q) hs) = O.
Proof. induction hs as [|h hs IH]; [reflexivity | exact IH]. Qed.

Lemma calls_below_nil here t n : calls_below DefaultRequired params here t n [].
Proof. split; [intros e [] | intros p; cbn; lia]. Qed.

Lemma calls_below_extend here t i old new :
  calls_below DefaultRequired params here t i old ->
  (forall e, In e new ->
     exists q, event_path e = (here ++ i :: q)%list
               /\ (forall p, e = DefaultValueCall p -> default_site DefaultRequired params t (i :: q))) ->
  (forall p, (default_calls p new <= 1)%nat) ->
  calls_below DefaultRequired params here t (S i) (old ++ new).
Proof.
  intros [Hold Hcount] Hnew Hcount'. split.
  - intros e He. apply in_app_or in He as [He|He].
    + destruct (Hold e He) as (j & q & Hj & Hp & Hd). exists j, q. split; [lia|auto].
    + destruct (Hnew e He) as (q & Hp & Hd). exists i, q. split; [lia|auto].
  - intros p. rewrite default_calls_app.
    specialize (Hcount p). specialize (Hcount' p).
    destruct (default_calls p new) as [|c] eqn:Ec; [lia|].
    destruct (default_calls p old) as [|c'] eqn:Ec'; [lia|]. exfalso.
    assert (Hin : In (DefaultValueCall p) new) by (apply default_calls_In; lia).
    assert (Hin' : In (DefaultValueCall p) old) by (apply default_calls_In; lia).
    destruct (Hnew _ Hin) as (q & Hp & _).
    destruct (Hold _ Hin') as (j & q' & Hj & Hp' & _).
    cbn [event_path] in Hp, Hp'. rewrite Hp in Hp'.
    apply app_inv_head in Hp'. injection Hp' as Hij _. lia.
Qed.

Lemma calls_below_same here t i evs :
  calls_below DefaultRequired params here t i evs -> calls_below DefaultRequired params here t (S i) evs.
Proof.
  intros H. rewrite <- (app_nil_r evs).
  apply calls_below_extend; [exact H | intros e [] | intros p; cbn; lia].
Qed.

Lemma visit_calls rec here name ms fields i f ty w :
  fields !! i = Some (f, ty) ->
  (forall field m p, calls_ok DefaultRequired params p ty (calls (rec ty field m p))) ->
  calls_below DefaultRequired params here (TStruct name ms fields) i (calls w) ->
  calls_below DefaultRequired params here (TStruct name ms fields) (S i) (calls (visit rec here i f ty w)).
Proof.
  intros Hi Hrec Hw.
  destruct (Field (target w) i) as [field|] eqn:Hfield.
  2:{ rewrite visit_eq, Hfield. now apply calls_below_same. }
  destruct (field_cases f) as [Ha|[[Ha He]|[[Ha [He Hk]]|[[Hb [v Hv]]|[Hb Hv]]]]].
  - rewrite (visit_embedded rec here i f ty w field) by assumption.
    cbv zeta. cbn [calls].
    destruct (Hrec field (missingErr w) (here ++ [i])%list) as [n [Hev Hcount]].
    apply calls_below_extend; [exact Hw | | exact Hcount].
    intros e He. destruct (Hev e He) as (j & q & _ & Hp & Hd).
    exists (j :: q). split; [now rewrite Hp, <- app_assoc|].
    intros p Hdef. destruct (Hd p Hdef) as (f' & ty' & Hat & Hdf & Hm).
    exists f', ty'. split; [|auto].
    cbn [field_at]. rewrite Hi, Ha. exact Hat.
  - rewrite visit_unexported by eauto. now apply calls_below_same.
  - rewrite visit_skipped by eauto. now apply calls_below_same.
  - rewrite (visit_present rec here i f ty w field v) by assumption.
    cbv zeta. cbn [calls].
    apply calls_below_extend; [exact Hw | | intros p; rewrite default_calls_hooks; lia].
    intros e He. apply in_map_iff in He as [h [<- _]].
    exists []. split; [reflexivity | discriminate].
  - destruct (required DefaultRequired f) eqn:Hr.
    + rewrite visit_absent_required by eauto. now apply calls_below_same.
    + assert (Hd : defaulted DefaultRequired params f = true)
        by (unfold defaulted; now rewrite Hb, Hv, Hr).
      rewrite (visit_absent_optional rec here i f ty w field) by assumption.
      destruct (method_set DefaultValue ty) as [defaulter|] eqn:Hm;
        [|now apply calls_below_same].
      destruct (nil_receiver_panics ty defaulter field);
        [now apply calls_below_same|].
      destruct (invoke ty defaulter tt field) as [field' dv].
      cbv zeta. cbn [calls].
      apply calls_below_extend; [exact Hw | |].
      * intros e [<-|He].
        -- exists []. split; [reflexivity|]. intros p _.
           exists f, ty. cbn [field_at]. rewrite Hi, Hm. eauto.
        -- apply in_map_iff in He as [h [<- _]].
           exists []. split; [reflexivity | discriminate].
      * intros p. cbn [default_calls]. rewrite default_calls_hooks.
        destruct (decide (p = (here ++ [i])%list)); lia.
Qed.

Lemma fields_loop_calls rec here name ms fields rest i w :
  (forall k ft, rest !! k = Some ft -> fields !! (i + k)%nat = Some ft) ->
  (forall ty, In ty (map snd rest) ->
     forall field m p, calls_ok DefaultRequired params p ty (calls (rec ty field m p))) ->
  calls_below DefaultRequired params here (TStruct name ms fields) i (calls w) ->
  calls_ok DefaultRequired params here (TStruct name ms fields) (calls (fields_loop rec here rest i w)).
Proof.
  revert i w. induction rest as [|[f ty] rest IH]; intros i w Hidx Hrec Hw.
  - rewrite fields_loop_nil. now exists i.
  - rewrite fields_loop_eq. destruct (parseErr w); try (now exists i).
    apply IH.
    + intros k ft Hk. replace (S i + k)%nat with (i + S k)%nat by lia.
      now apply Hidx.
    + intros ty' Hin. apply Hrec. now right.
    + apply visit_calls; [|apply Hrec; now left|exact Hw].
      specialize (Hidx O (f, ty) eq_refl). now rewrite Nat.add_0_r in Hidx.
Qed.

Lemma unmarshalToValue_calls t :
  forall field m here, calls_ok DefaultRequired params here t (calls (unmarshalToValue t field m here)).
Proof.
  induction t as [name k ms | elem _ | name ms fields IH] using type_ind;
    intros field m here.
  - rewrite unmarshalToValue_not_struct by discriminate.
    exists O. apply calls_below_nil.
  - rewrite unmarshalToValue_not_struct by discriminate.
    exists O. apply calls_below_nil.
  - rewrite unmarshalToValue_struct.
    apply fields_loop_calls; [auto | | apply calls_below_nil].
    intros ty Hin. apply list_elem_of_In, list_elem_of_fmap in Hin as [[f ty'] [-> Hin]].
    rewrite Forall_forall in IH. apply (IH (f, ty')), Hin.
Qed.

(** C9.  In one call of [UnmarshalParams], [DefaultValue] is called at
    most once on any field; a field it is called on is a bound field
    (exported, not embedded, not skipped) whose key is absent from the
    parameters and which is not required once its options are read, and
    whose type has the method; it is never called on a field whose key
    is present. *)
Theorem DefaultValue_called_at_most_once t v (p : path) :
  let w := UnmarshalParams_walk t v in
  (default_calls p (calls w) <= 1)%nat
  /\ (In (DefaultValueCall p) (calls w) ->
      exists f ty,
        field_at p t = Some (f, ty)
        /\ binds f = true
        /\ params !! key f = None
        /\ required DefaultRequired f = false
        /\ is_Some (method_set DefaultValue ty))
  /\ (forall f ty x,
        field_at p t = Some (f, ty) -> params !! key f = Some x ->
        default_calls p (calls w) = O).
Proof.
  intros w. subst w. rewrite UnmarshalParams_walk_eq.
  destruct (unmarshalToValue_calls t v (mkMissingFields []) []) as [n [Hev Hcount]].
  assert (Hsite : In (DefaultValueCall p)
                     (calls (unmarshalToValue t v (mkMissingFields []) [])) ->
                  exists f ty,
                    field_at p t = Some (f, ty)
                    /\ binds f = true
                    /\ params !! key f = None
                    /\ required DefaultRequired f = false
                    /\ is_Some (method_set DefaultValue ty)).
  { intros Hin. destruct (Hev _ Hin) as (j & q & _ & Hp & Hd).
    cbn [event_path app] in Hp. subst p.
    destruct (Hd _ eq_refl) as (f & ty & Hat & Hdf & Hm).
    exists f, ty. unfold defaulted, absent in Hdf.
    apply andb_prop in Hdf as [Hdf Hr]. apply andb_prop in Hdf as [Hb Hv].
    apply negb_true_iff in Hr.
    destruct (params !! key f) eqn:E; [discriminate|]. auto. }
  split; [apply Hcount | split; [exact Hsite|]].
  intros f ty x Hat Hx.
  destruct (default_calls p _) as [|c] eqn:Ec; [reflexivity|]. exfalso.
  destruct Hsite as (f' & ty' & Hat' & _ & Hnone & _).
  { apply default_calls_In. lia. }
  congruence.
Qed.

End Properties.

(** ** Keys and options *)

(** C2, amended.  For an exported field that is not embedded, the key
    is the first non-empty of: the request tag value up to its first
    comma (what follows are the options), the response tag value, the
    db tag value when it is not ["-"], the lower-cased name of the
    field.  When the request tag has no comma, that is the first
    non-empty of the tag values themselves.  The parameters are looked
    up under that key only: two parameter maps that agree on it treat
    the field alike. *)
Theorem field_key_precedence (f : StructField) :
  Anonymous f = false -> exported (Name f) = true ->
  key f = key_by_precedence f
  /\ (Strings.IndexRune (Get (Tag f) "request") "," = None ->
      key f = key_of_tag_values f)
  /\ forall PF C DR (params params' : gmap string raw) rec here i ty w,
      params !! key_by_precedence f = params' !! key_by_precedence f ->
      visit PF C DR params rec here i f ty w = visit PF C DR params' rec here i f ty w.
Proof.
  intros Ha He. split; [apply NameAndArgs_key|]. split.
  { intros Hcomma. unfold key. rewrite NameAndArgs_key.
    unfold key_by_precedence, key_of_tag_values, request_name.
    now rewrite IndexRune_none. }
  intros PF C DR params params' rec here i ty w.
  rewrite <- NameAndArgs_key. intros Hk.
  rewrite !visit_eq, Ha, He.
  destruct (Field (target w) i); [|reflexivity].
  destruct (NameAndArgs f) as [name args]. simpl in Hk.
  now rewrite Hk.
Qed.

Lemma NameAndArgs_name_optional (f : StructField) :
  Get (Tag f) "request" = "name,optional" -> NameAndArgs f = ("name", ["optional"]).
Proof. intros H. unfold NameAndArgs. rewrite H. reflexivity. Qed.

Lemma NameAndArgs_name_required (f : StructField) :
  Get (Tag f) "request" = "name,required" -> NameAndArgs f = ("name", ["required"]).
Proof. intros H. unfold NameAndArgs. rewrite H. reflexivity. Qed.

(** ** No panic on fields of a basic type *)

Lemma assign_basic_no_panic PF C name k ms field v :
  snd (assign PF C true (TBasic name k ms) field v) <> Panic.
Proof.
  unfold assign, setInt, setFloat, store. cbn [Kind_of].
  destruct k; destruct v; cbn;
    repeat match goal with
           | |- context [match ?x with _ => _ end] => destruct x; cbn
           end;
    discriminate.
Qed.

Lemma deferred_no_panic t copy post r :
  snd r <> Panic -> sv_err (deferred t copy post r) <> Panic.
Proof.
  destruct r as [tgt st]. unfold deferred. cbn [snd].
  destruct post as [m|]; destruct st; cbn; try congruence.
  destruct (invoke_bound t m tt copy tgt) as [tgt' [e|]]; cbn; congruence.
Qed.

Lemma setValue_basic_no_panic PF C canAddr name k ms field v :
  sv_err (setValue PF C canAddr (TBasic name k ms) field v) <> Panic.
Proof.
  rewrite setValue_eq. destruct (is_nil v); [cbn; discriminate|]. cbv beta zeta.
  rewrite ?builtin_basic. unfold allocated.
  assert (Hconv : forall tgt,
             sv_err
               match capability Receive canAddr (TBasic name k ms) with
               | Some receiver =>
                   let (target', err) :=
                     invoke_bound (TBasic name k ms) receiver v field tgt in
                   and_then [ReceiveCall v]
                     (deferred (TBasic name k ms) field
                        (capability PostReceive canAddr (TBasic name k ms))
                        (target', status_of err))
               | None =>
                   deferred (TBasic name k ms) field
                     (capability PostReceive canAddr (TBasic name k ms))
                     (assign PF C true (TBasic name k ms) tgt v)
               end <> Panic).
  { intros tgt. destruct (capability Receive canAddr _) as [receiver|].
    - destruct (invoke_bound _ receiver v field tgt) as [tgt' err].
      cbn [and_then sv_err].
      apply deferred_no_panic. destruct err; discriminate.
    - apply deferred_no_panic, assign_basic_no_panic. }
  destruct (capability PreReceive canAddr _) as [pre|]; [|apply Hconv].
  destruct (invoke _ pre tt field) as [tgt' [e|]]; [cbn; discriminate|].
  cbn [and_then sv_err]. apply Hconv.
Qed.

(** C6.  The options of a field override [DefaultRequired].  With
    [DefaultRequired] true, an exported field tagged
    [request:"name,optional"] whose key "name" has no parameter adds
    nothing to the missing fields, and a call on a struct made of that
    field alone, without parameters, returns nil.  With
    [DefaultRequired] false, the field tagged [request:"name,required"]
    adds "name" to the missing fields, and the same call returns the
    [MissingFields] error naming "name". *)
Theorem per_field_option_overrides_default PF C (params : gmap string raw)
    rec here i (f : StructField) ty w field :
  Anonymous f = false -> exported (Name f) = true ->
  Field (target w) i = Some field ->
  params !! "name" = None ->
  (Get (Tag f) "request" = "name,optional" ->
   missingErr (visit PF C true params rec here i f ty w) = missingErr w
   /\ matchedFields (visit PF C true params rec here i f ty w) = matchedFields w
   /\ forall sname sms tname k ms x,
       UnmarshalParams PF C true ∅ (TStruct sname sms [(f, TBasic tname k ms)])
                       (VStruct [x])
       = Returns None)
  /\ (Get (Tag f) "request" = "name,required" ->
      visit PF C false params rec here i f ty w
      = mkWalk (matchedFields w) (parseErr w) (target w)
               (AddMissingField (missingErr w) "name") (calls w)
      /\ forall sname sms x,
          UnmarshalParams PF C false ∅ (TStruct sname sms [(f, ty)]) (VStruct [x])
          = Returns (Some (MissingFieldsError (mkMissingFields ["name"])))).
Proof.
  intros Ha He Hfield Hnone. split; intros Htag.
  - pose proof (NameAndArgs_name_optional f Htag) as HN.
    assert (Hd : forall ps : gmap string raw,
               ps !! "name" = None -> defaulted true ps f = true).
    { intros ps Hps. unfold defaulted, binds, absent, required, key.
      rewrite Ha, He, HN. cbn. now rewrite Hps. }
    split; [|split].
    + rewrite (visit_absent_optional PF C true params rec here i f ty w field)
        by auto.
      destruct (method_set DefaultValue ty) as [d|]; [|reflexivity].
      destruct (nil_receiver_panics ty d field); [reflexivity|].
      now destruct (invoke ty d tt field).
    + rewrite (visit_absent_optional PF C true params rec here i f ty w field)
        by auto.
      destruct (method_set DefaultValue ty) as [d|]; [|reflexivity].
      destruct (nil_receiver_panics ty d field); [reflexivity|].
      now destruct (invoke ty d tt field).
    + intros sname sms tname k ms x.
      rewrite UnmarshalParams_eq, single_field_walk.
      rewrite (visit_absent_optional PF C true ∅ _ _ _ _ _ _ x)
        by (first [reflexivity | apply Hd, lookup_empty]).
      unfold conclude. rewrite map_size_empty.
      destruct (method_set DefaultValue (TBasic tname k ms)) as [d|]; [|reflexivity].
      change (nil_receiver_panics (TBasic tname k ms) d x) with false. cbv iota.
      destruct (invoke _ d tt x) as [x' dv]. cbv zeta. cbn [parseErr matchedFields missingErr].
      pose proof (setValue_basic_no_panic PF C true tname k ms x' dv) as Hnp.
      destruct (sv_err (setValue PF C true (TBasic tname k ms) x' dv));
        [reflexivity | reflexivity | congruence].
  - pose proof (NameAndArgs_name_required f Htag) as HN.
    assert (Hk : key f = "name") by (unfold key; now rewrite HN).
    assert (Hb : binds f = true) by (unfold binds; now rewrite Ha, He, Hk).
    assert (Hr : required false f = true) by (unfold required; now rewrite HN).
    assert (Hv : forall ps : gmap string raw, ps !! "name" = None -> absent ps f = true).
    { intros ps Hps. unfold absent. now rewrite Hk, Hps. }
    split.
    + rewrite visit_absent_required by eauto. now rewrite Hk.
    + intros sname sms x.
      rewrite UnmarshalParams_eq, single_field_walk.
      rewrite visit_absent_required
        by (first [assumption | apply Hv, lookup_empty | cbn; eauto]).
      rewrite Hk. unfold conclude. now rewrite map_size_empty.
Qed.

(** ** Types that receive their own value *)

Lemma receive_calls_app a b :
  receive_calls (a ++ b) = (receive_calls a ++ receive_calls b)%list.
Proof.
  induction a as [|[|v|] a IH]; cbn; [reflexivity | exact IH | now f_equal | exact IH].
Qed.

Lemma deferred_receive_calls t copy post r :
  receive_calls (sv_calls (deferred t copy post r)) = [].
Proof.
  destruct r as [tgt st]. unfold deferred.
  destruct post as [m|]; destruct st; try reflexivity;
    now destruct (invoke_bound t m tt copy tgt).
Qed.

Lemma deferred_failed t copy post tgt e :
  deferred t copy post (tgt, Failed e) = mkSet tgt (Failed e) [].
Proof. unfold deferred. now destruct post. Qed.

(** With a [Receive] method, a value that is not nil, and [PreReceive]
    (if any) passed, [setValue] is the call to [Receive] between the
    hooks. *)
Lemma setValue_receiver PF C t receiver field v self :
  capability Receive true t = Some receiver ->
  is_nil v = false ->
  before_receive t field = (self, None) ->
  setValue PF C true t field v
  = and_then (match capability PreReceive true t with
              | Some _ => [PreReceiveCall]
              | None => []
              end)
      (and_then [ReceiveCall v]
         (deferred t (allocated t field) (capability PostReceive true t)
            (fst (invoke_bound t receiver v (allocated t field) self),
             status_of (snd (invoke_bound t receiver v (allocated t field) self))))).
Proof.
  intros Hrecv Hnil Hpre. rewrite setValue_eq, Hnil. cbv beta zeta.
  rewrite Hrecv. unfold before_receive in Hpre.
  destruct (capability PreReceive true t) as [pre|].
  - destruct (invoke t pre tt (allocated t field)) as [tgt err].
    injection Hpre as -> ->.
    now destruct (invoke_bound t receiver v (allocated t field) self).
  - injection Hpre as ->.
    destruct (invoke_bound t receiver v _ _) as [tgt' err]. cbn [fst snd].
    now destruct (deferred _ _ _ _).
Qed.

Lemma deferred_after_receive t receiver field v self :
  let r := deferred t (allocated t field) (capability PostReceive true t)
             (fst (invoke_bound t receiver v (allocated t field) self),
              status_of (snd (invoke_bound t receiver v (allocated t field) self))) in
  sv_target r = fst (after_receive t receiver field v self)
  /\ sv_err r = status_of (snd (after_receive t receiver field v self)).
Proof.
  unfold after_receive, deferred. cbv zeta.
  destruct (invoke_bound t receiver v (allocated t field) self) as [field' [e|]];
    cbn [fst snd status_of].
  - now destruct (capability PostReceive true t).
  - destruct (capability PostReceive true t) as [post|]; [|split; reflexivity].
    now destruct (invoke_bound t post tt (allocated t field) field').
Qed.

(** C5, amended.  A field whose type has [Receive] (on the value or on
    the pointer to it), whose key is present with a value that is not
    nil, and whose [PreReceive] (if any) returned no error: [Receive] is
    called once, with the raw value; the field and the error that
    [setValue] leaves are those the hooks leave ([Receive], then
    [PostReceive] when [Receive] returned nil), so that nothing else
    writes the field: [setInt], [setFloat], the handling of [Null*]
    structs and the assignment do not run, and [ParseFloat] and
    [Convert] play no part; and an error returned by [Receive] is the
    error of [setValue] and, for a field of the target struct reached
    without error, the error the call returns. *)
Theorem receiver_takes_over PF C t receiver field v self :
  capability Receive true t = Some receiver ->
  is_nil v = false ->
  before_receive t field = (self, None) ->
  let r := setValue PF C true t field v in
  let received := invoke_bound t receiver v (allocated t field) self in
  receive_calls (sv_calls r) = [v]
  /\ sv_target r = fst (after_receive t receiver field v self)
  /\ sv_err r = status_of (snd (after_receive t receiver field v self))
  /\ (forall PF' C', setValue PF' C' true t field v = r)
  /\ (forall e,
        snd received = Some e ->
        sv_err r = Failed e
        /\ sv_target r = fst received
        /\ forall DR (params : gmap string raw) sname sms pre f post targetValue,
            let w0 :=
              fields_loop PF C DR params (unmarshalToValue PF C DR params) [] pre O
                          (mkWalk O Nil targetValue (mkMissingFields []) []) in
            parseErr w0 = Nil ->
            Field (target w0) (length pre) = Some field ->
            binds f = true -> params !! key f = Some v ->
            UnmarshalParams PF C DR params
              (TStruct sname sms (pre ++ (f, t) :: post)) targetValue
            = Returns (Some e)).
Proof.
  intros Hrecv Hnil Hpre r received.
  pose proof (setValue_receiver PF C t receiver field v self Hrecv Hnil Hpre) as Hr.
  fold r in Hr.
  destruct (deferred_after_receive t receiver field v self) as [Htarget Herror].
  split; [|split; [|split; [|split]]].
  - rewrite Hr. cbn [and_then sv_calls].
    rewrite !receive_calls_app, deferred_receive_calls.
    now destruct (capability PreReceive true t).
  - rewrite Hr. cbn [and_then sv_target]. exact Htarget.
  - rewrite Hr. cbn [and_then sv_err]. exact Herror.
  - intros PF' C'.
    rewrite Hr. now apply setValue_receiver.
  - intros e He. unfold received in He.
    assert (Herr : sv_err r = Failed e).
    { rewrite Hr, He. cbn [status_of and_then sv_err]. now rewrite deferred_failed. }
    split; [exact Herr | split].
    + rewrite Hr, He. cbn [status_of and_then sv_target]. now rewrite deferred_failed.
    + intros DR params sname sms pre f post targetValue w0 Hw0 Hfield Hb Hv.
      rewrite UnmarshalParams_eq, unmarshalToValue_struct.
      rewrite fields_loop_app. fold w0.
      rewrite fields_loop_cons by exact Hw0. cbn [Nat.add].
      rewrite (visit_present PF C DR params _ _ _ f t w0 field v) by assumption.
      cbv zeta. fold r. rewrite Herr.
      rewrite fields_loop_stopped by discriminate.
      reflexivity.
Qed.

(** ** The nullable wrapper *)

(** A [NullInt64] field takes the integer 42, whether it comes as an
    [int] or, as JSON numbers do, as a [float64]: [Valid] becomes true
    and [Int64] becomes 42. *)
Lemma NullInt64_receives_42 PF C DR (x : Z) (valid : bool) :
  let before := VStruct [VStruct [VInt x; VBool valid]] in
  let after := VStruct [VStruct [VInt 42; VBool true]] in
  (target (UnmarshalParams_walk PF C DR {["count" := RInt W0 42]} Counter before) = after
   /\ UnmarshalParams PF C DR {["count" := RInt W0 42]} Counter before = Returns None)
  /\ (target (UnmarshalParams_walk PF C DR
                {["count" := RFloat64 (Float.float64_of_Z 42)]} Counter before) = after
      /\ UnmarshalParams PF C DR
           {["count" := RFloat64 (Float.float64_of_Z 42)]} Counter before = Returns None).
Proof. repeat split; vm_compute; reflexivity. Qed.

(** C4.  Binding nil to a field of the nullable wrapper type
    [NullInt64]: [setValue] returns at its first test, with the error
    "Cannot set non-pointer value to null", since the field is a struct
    and not a pointer.  The wrapper is left as it was, [Valid] is not
    set to false, and the call returns that error. *)
Theorem null_to_NullInt64_is_rejected PF C DR (x : Z) (valid : bool) :
  let wrapper := VStruct [VInt x; VBool valid] in
  let params : gmap string raw := {["count" := RNil]} in
  let rejected := errors_New "Cannot set non-pointer value to null" in
  setValue PF C true NullInt64 wrapper RNil = mkSet wrapper (Failed rejected) []
  /\ target (UnmarshalParams_walk PF C DR params Counter (VStruct [wrapper]))
     = VStruct [wrapper]
  /\ UnmarshalParams PF C DR params Counter (VStruct [wrapper])
     = Returns (Some rejected).
Proof. repeat split; vm_compute; reflexivity. Qed.

(** ** The examples of the documentation *)

(** The struct of the doc comment of [UnmarshalParams]:
    [Foo string; Bar string `response:"baz"`; Baz string `response:"-"`;
    Bacon string `response:"-" request:"bacon"`].  All of "foo", "baz"
    and "bacon" given: nil, and [Baz] is skipped.  "baz" left out: a
    [MissingFields].  An unknown parameter: the generic error. *)
Example doc_comment_struct :
  let Example_ :=
    TStruct "Example" no_methods
      [(mkStructField "Foo" [] false, t_string);
       (mkStructField "Bar" [("response", "baz")] false, t_string);
       (mkStructField "Baz" [("response", "-")] false, t_string);
       (mkStructField "Bacon" [("response", "-"); ("request", "bacon")] false, t_string)] in
  let bind (params : gmap string raw) :=
    UnmarshalParams ParseFloat_none Convert_identical true params Example_ (Zero Example_) in
  let all : gmap string raw :=
    {["foo" := RString "a"; "baz" := RString "b"; "bacon" := RString "c"]} in
  bind all = Returns None
  /\ target (UnmarshalParams_walk ParseFloat_none Convert_identical true all
                                  Example_ (Zero Example_))
     = VStruct [VString "a"; VString "b"; VString ""; VString "c"]
  /\ bind {["foo" := RString "a"; "bacon" := RString "c"]}
     = Returns (Some (MissingFieldsError (mkMissingFields ["baz"])))
  /\ bind {["foo" := RString "a"; "baz" := RString "b"; "bacon" := RString "c";
            "other" := RString "d"]}
     = Returns (Some moreParameters).
Proof. repeat split; vm_compute; reflexivity. Qed.

(** The [Email] of the README has [Receive] on the pointer: a field of
    type [Email] finds it through its address, a field of type [*Email]
    directly, and the string is stored either way. *)
Example readme_Email :
  capability Receive true Email = Some Email_Receive
  /\ capability Receive false Email = None
  /\ capability Receive true (TPtr Email) = Some Email_Receive
  /\ setValue ParseFloat_none Convert_identical true Email (VString "")
               (RString "me@example.org")
     = mkSet (VString "me@example.org") Nil [ReceiveCall (RString "me@example.org")]
  /\ setValue ParseFloat_none Convert_identical true (TPtr Email) VNil
               (RString "me@example.org")
     = mkSet (VPtrTo (VString "me@example.org")) Nil
             [ReceiveCall (RString "me@example.org")].
Proof. repeat split; vm_compute; reflexivity. Qed.

(** A conversion error in an embedded struct ends the whole traversal:
    [Query] is not assigned although "query" is a parameter. *)
Example embedded_error_stops_the_walk :
  let params : gmap string raw :=
    {["limit" := RString "ten"; "query" := RString "go"]} in
  target (UnmarshalParams_walk ParseFloat_none Convert_identical true params
                               Search (Zero Search))
  = Zero Search
  /\ UnmarshalParams ParseFloat_none Convert_identical true params Search (Zero Search)
     = Returns (Some (NumError "ParseInt" "ten" ErrSyntax)).
Proof. repeat split; vm_compute; reflexivity. Qed.

(** ** Counterexamples to the claims as they were stated *)

(** C2 as stated: the key is not the request tag value when the tag
    carries options.  For [Foo int `request:"name,optional"`] the key is
    "name". *)
Lemma request_options_are_not_in_the_key :
  Anonymous name_optional = false
  /\ exported (Name name_optional) = true
  /\ key name_optional = "name"
  /\ key_of_tag_values name_optional = "name,optional"
  /\ key name_optional <> key_of_tag_values name_optional.
Proof. repeat split; try reflexivity. vm_compute. discriminate. Qed.


(** An embedded struct is traversed whatever its tag says.  In
    [struct { Paging `request:"-"`; Query string }] with "limit" set to
    5, the field [Limit] of the embedded [Paging] is assigned and
    counted. *)
Example embedded_dash_is_traversed :
  let Model :=
    TStruct "Model" no_methods
      [(mkStructField "Paging" [("request", "-")] true, Paging);
       (mkStructField "Query" [("request", "query,optional")] false, t_string)] in
  let params : gmap string raw := {["limit" := RInt W0 5]} in
  let w := UnmarshalParams_walk ParseFloat_none Convert_identical true params Model
                                (Zero Model) in
  target w = VStruct [VStruct [VInt 5; VInt 10]; VString ""]
  /\ matchedFields w = 1%nat
  /\ UnmarshalParams ParseFloat_none Convert_identical true params Model (Zero Model)
     = Returns None.
Proof. repeat split; vm_compute; reflexivity. Qed.

(** C8 as stated: the unsigned integer kinds are integer kinds, and
    [setValue] has no case for them.  For [struct { Age uint }] with
    "age" set to "17" the string is not parsed: a string is not
    convertible to [uint], the call returns "Cannot convert value to
    target type" and [Age] is still 0. *)
Lemma unsigned_field_refuses_string :
  let Model := TStruct "Model" no_methods [(mkStructField "Age" [] false, t_uint)] in
  let params : gmap string raw := {["age" := RString "17"]} in
  Kind_of t_uint = Basic (Uint W0)
  /\ UnmarshalParams ParseFloat_none Convert_identical true params Model (Zero Model)
     = Returns (Some (errors_New "Cannot convert value to target type"))
  /\ target (UnmarshalParams_walk ParseFloat_none Convert_identical true params Model
                                  (Zero Model))
     = VStruct [VUint 0].
Proof. repeat split; vm_compute; reflexivity. Qed.

(** C10 as stated: a field of an unsigned integer kind does not reach
    [setInt].  For [struct { Count uint }] with "count" set to [true],
    a value [setInt] has no case for, the call reports "Cannot convert
    value to target type" instead of returning nil. *)
Lemma unsigned_field_reports_bool :
  let Model := TStruct "Model" no_methods [(mkStructField "Count" [] false, t_uint)] in
  let params : gmap string raw := {["count" := RBool true]} in
  Kind_of t_uint = Basic (Uint W0)
  /\ unsupported (RBool true) = true
  /\ UnmarshalParams ParseFloat_none Convert_identical true params Model (Zero Model)
     = Returns (Some (errors_New "Cannot convert value to target type")).
Proof. repeat split; vm_compute; reflexivity. Qed.

(** C5 as stated: a nil value never reaches [Receive].  For
    [Email *Email] with "email" set to nil, the pointer is cleared by
    the built-in handling of nil, no method is called and the call
    returns nil. *)
Lemma nil_bypasses_Receive :
  let params : gmap string raw := {["email" := RNil]} in
  let before := VStruct [VPtrTo (VString "old@example.org")] in
  capability Receive true (TPtr Email) = Some Email_Receive
  /\ params !! "email" = Some RNil
  /\ calls (UnmarshalParams_walk ParseFloat_none Convert_identical true params User before)
     = []
  /\ target (UnmarshalParams_walk ParseFloat_none Convert_identical true params User before)
     = VStruct [VNil]
  /\ UnmarshalParams ParseFloat_none Convert_identical true params User before
     = Returns None.
Proof. repeat split; vm_compute; reflexivity. Qed.

(** ** The theorems at work on concrete structs *)

(** [struct { Age int; Name string }] with "age" set to "abc": the
    conversion of [Age] fails, [Name] is not visited, the call returns
    the error of [strconv.ParseInt]. *)
Lemma UnmarshalParams_outcome_priority_witness :
  let params : gmap string raw := {["age" := RString "abc"]} in
  let rec := unmarshalToValue ParseFloat_none Convert_identical true params in
  let Age := (mkStructField "Age" [] false, t_int) in
  let Name_ := (mkStructField "Name" [] false, t_string) in
  let w0 := mkWalk O Nil (Zero Person) (mkMissingFields []) [] in
  fields_loop ParseFloat_none Convert_identical true params rec [] ([] ++ [Age; Name_]) O w0
  = visit ParseFloat_none Convert_identical true params rec [] O (fst Age) (snd Age) w0
  /\ UnmarshalParams ParseFloat_none Convert_identical true params Person (Zero Person)
     = Returns (Some (NumError "ParseInt" "abc" ErrSyntax)).
Proof.
  intros params rec Age Name_ w0.
  destruct (UnmarshalParams_outcome_priority ParseFloat_none Convert_identical true params)
    as (Habort & _ & _ & Hcall).
  split.
  - apply (Habort rec [] [] (fst Age) (snd Age) [Name_] O w0
                  (NumError "ParseInt" "abc" ErrSyntax)).
    + reflexivity.
    + vm_compute. reflexivity.
  - destruct (Hcall Person (Zero Person)) as (Herr & _).
    apply Herr. vm_compute. reflexivity.
Defined.

(** [Foo int `request:"name,optional"`]: the key is "name", and a
    parameter under another key changes nothing for the field. *)
Lemma field_key_precedence_witness :
  let params : gmap string raw := {["name" := RInt W0 5]} in
  let params' : gmap string raw := {["name" := RInt W0 5; "extra" := RBool true]} in
  let rec := unmarshalToValue ParseFloat_none Convert_identical true params in
  key name_optional = key_by_precedence name_optional
  /\ visit ParseFloat_none Convert_identical true params rec [] O name_optional t_int start
     = visit ParseFloat_none Convert_identical true params' rec [] O name_optional t_int start.
Proof.
  intros params params' rec.
  destruct (field_key_precedence name_optional eq_refl eq_refl) as (Hkey & _ & Hlookup).
  split; [exact Hkey|].
  apply Hlookup. vm_compute. reflexivity.
Defined.


(** [struct { Email *Email }] with "email" set to [true]: [Receive] is
    called with [true] and its error is the error of the call.  A
    field of type [Fixed] sent the integer 5 holds 99, what its
    [Receive] stored, and not 5.  A field of type [Gate] holding 0:
    [PreReceive] sets it to 1, and [Receive], bound to the copy taken
    before, still sees 0 and returns nil. *)
Lemma receiver_takes_over_witness :
  let params : gmap string raw := {["email" := RBool true]} in
  let refused := MethodError "Cannot read non-string email" in
  receive_calls
    (sv_calls (setValue ParseFloat_none Convert_identical true (TPtr Email) VNil (RBool true)))
  = [RBool true]
  /\ UnmarshalParams ParseFloat_none Convert_identical true params User (Zero User)
     = Returns (Some refused)
  /\ sv_target (setValue ParseFloat_none Convert_identical true Fixed (VInt 0) (RInt W0 5))
     = VInt 99
  /\ sv_target (setValue ParseFloat_none Convert_identical true Gate (VInt 0) (RInt W0 5))
     = VInt 1
  /\ sv_err (setValue ParseFloat_none Convert_identical true Gate (VInt 0) (RInt W0 5))
     = Nil.
Proof.
  intros params refused.
  destruct (receiver_takes_over ParseFloat_none Convert_identical (TPtr Email)
              Email_Receive VNil (RBool true) (VPtrTo (VString ""))
              eq_refl eq_refl eq_refl)
    as (Hcalls & _ & _ & _ & Herr).
  destruct (receiver_takes_over ParseFloat_none Convert_identical Fixed
              Fixed_Receive (VInt 0) (RInt W0 5) (VInt 0)
              eq_refl eq_refl eq_refl)
    as (_ & Hfixed & _).
  destruct (receiver_takes_over ParseFloat_none Convert_identical Gate
              Gate_Receive (VInt 0) (RInt W0 5) (VInt 1)
              eq_refl eq_refl eq_refl)
    as (_ & Hgate & Hgate_err & _).
  split; [exact Hcalls|].
  split.
  - destruct (Herr refused eq_refl) as (_ & _ & Hcall).
    apply (Hcall true params "User" no_methods [] (mkStructField "Email" [] false) []
                 (Zero User)).
    + reflexivity.
    + reflexivity.
    + reflexivity.
    + vm_compute. reflexivity.
  - split; [exact Hfixed|]. split; [exact Hgate | exact Hgate_err].
Defined.

(** The two halves of the option rule, on structs of one field and no
    parameters. *)
Lemma per_field_option_overrides_default_witness :
  UnmarshalParams ParseFloat_none Convert_identical true ∅
    (TStruct "Model" no_methods [(name_optional, t_int)]) (VStruct [VInt 0])
  = Returns None
  /\ UnmarshalParams ParseFloat_none Convert_identical false ∅
       (TStruct "Model" no_methods [(name_required, t_int)]) (VStruct [VInt 0])
     = Returns (Some (MissingFieldsError (mkMissingFields ["name"]))).
Proof.
  split.
  - destruct (per_field_option_overrides_default ParseFloat_none Convert_identical ∅
                (unmarshalToValue ParseFloat_none Convert_identical true ∅)
                [] O name_optional t_int start (VInt 0)
                eq_refl eq_refl eq_refl (lookup_empty _)) as [Hoptional _].
    destruct (Hoptional eq_refl) as (_ & _ & Hcall).
    apply Hcall.
  - destruct (per_field_option_overrides_default ParseFloat_none Convert_identical ∅
                (unmarshalToValue ParseFloat_none Convert_identical false ∅)
                [] O name_required t_int start (VInt 0)
                eq_refl eq_refl eq_refl (lookup_empty _)) as [_ Hrequired].
    destruct (Hrequired eq_refl) as (_ & Hcall).
    apply Hcall.
Defined.

(** [struct { Age int; Name string }] with "age" only: the list of
    missing fields is ["name"]. *)
Lemma missing_fields_exactly_required_absent_witness :
  let params : gmap string raw := {["age" := RInt W0 30]} in
  let w := UnmarshalParams_walk ParseFloat_none Convert_identical true params
                                Person (Zero Person) in
  Names (missingErr w) = ["name"]
  /\ exists k, required_absent true params Person k.
Proof.
  intros params w.
  destruct (missing_fields_exactly_required_absent ParseFloat_none Convert_identical
              true params Person (Zero Person)) as [_ Hdone].
  destruct Hdone as [Hnames Hiff].
  - vm_compute. reflexivity.
  - split.
    + fold w in Hnames. rewrite Hnames. vm_compute. reflexivity.
    + apply Hiff. vm_compute. reflexivity.
Defined.

(** [struct { Age int }] with "age" set to "17". *)
Lemma integer_field_from_string_witness :
  let params : gmap string raw := {["age" := RString "17"]} in
  let Model := TStruct "Model" no_methods [(mkStructField "Age" [] false, t_int)] in
  UnmarshalParams ParseFloat_none Convert_identical true params Model (VStruct [VInt 0])
  = Returns None
  /\ target (UnmarshalParams_walk ParseFloat_none Convert_identical true params Model
                                  (VStruct [VInt 0]))
     = VStruct [VInt 17].
Proof.
  intros params Model.
  destruct (integer_field_from_string ParseFloat_none Convert_identical true params
              "int" W0 None) as (_ & _ & Hcall).
  destruct (Hcall "Model" no_methods (mkStructField "Age" [] false) (VInt 0) eq_refl)
    as [_ H17].
  apply H17.
  - vm_compute. reflexivity.
  - vm_compute. reflexivity.
Defined.

(** [struct { Paging; Query string }] with "query" only: the two
    optional fields of the embedded [Paging] get their default, once
    each. *)
Lemma DefaultValue_called_at_most_once_witness :
  let params : gmap string raw := {["query" := RString "go"]} in
  let w := UnmarshalParams_walk ParseFloat_none Convert_identical true params
                                Search (Zero Search) in
  target w = VStruct [VStruct [VInt 10; VInt 10]; VString "go"]
  /\ (default_calls [O; 1%nat] (calls w) <= 1)%nat
  /\ exists f ty,
      field_at [O; 1%nat] Search = Some (f, ty)
      /\ binds f = true
      /\ params !! key f = None
      /\ required true f = false
      /\ is_Some (method_set DefaultValue ty).
Proof.
  intros params w.
  destruct (DefaultValue_called_at_most_once ParseFloat_none Convert_identical true
              params Search (Zero Search) [O; 1%nat]) as (Honce & Hsite & _).
  split; [vm_compute; reflexivity|].
  split; [exact Honce|].
  apply Hsite. vm_compute. right. left. reflexivity.
Defined.

(** [struct { Count int }] with "count" set to [true]: the call
    returns nil and [Count] is still 0. *)
Lemma unsupported_raw_is_ignored_witness :
  let params : gmap string raw := {["count" := RBool true]} in
  let Model := TStruct "Model" no_methods [(mkStructField "Count" [] false, t_int)] in
  UnmarshalParams ParseFloat_none Convert_identical true params Model (VStruct [VInt 0])
  = Returns None
  /\ target (UnmarshalParams_walk ParseFloat_none Convert_identical true params Model
                                  (VStruct [VInt 0]))
     = VStruct [VInt 0].
Proof.
  intros params Model.
  destruct (unsupported_raw_is_ignored ParseFloat_none Convert_identical true params
              (RBool true) eq_refl) as (_ & _ & Hfield).
  destruct (Hfield "int" (Int W0) None eq_refl) as (_ & _ & Hcall).
  apply (Hcall "Model" no_methods (mkStructField "Count" [] false) (VInt 0)).
  - reflexivity.
  - vm_compute. reflexivity.
  - vm_compute. reflexivity.
Defined.

(** * Further properties *)

(** ** The options of a tag are its non-empty pieces *)

(** The text after the first comma, if there is a comma. *)
Fixpoint after_comma (s : string) : option string :=
  match s with
  | EmptyString => None
  | String c s' => if Ascii.eqb c "," then Some s' else after_comma s'
  end.

Definition starts_with_comma (s : string) : bool :=
  match s with
  | String c _ => Ascii.eqb c ","
  | EmptyString => false
  end.

Lemma split_commas_eq s :
  split_commas s
  = before_comma s :: match after_comma s with
                      | Some r => split_commas r
                      | None => []
                      end.
Proof.
  induction s as [|c s IH]; [reflexivity|]. cbn.
  destruct (Ascii.eqb c ","); [reflexivity|]. now rewrite IH.
Qed.

Lemma drop_IndexRune s i :
  Strings.IndexRune s "," = Some i ->
  exists r, after_comma s = Some r /\ Strings.drop i s = String "," r.
Proof.
  revert i. induction s as [|c s IH]; intros i; cbn; [discriminate|].
  destruct (Ascii.eqb c ",") eqn:Hc.
  - intros [= <-]. apply Ascii.eqb_eq in Hc. subst c. eauto.
  - destruct (Strings.IndexRune s ",") as [j|]; [|discriminate].
    intros [= <-]. cbn. now apply IH.
Qed.

Lemma after_comma_none s : Strings.IndexRune s "," = None -> after_comma s = None.
Proof.
  induction s as [|c s IH]; cbn; [reflexivity|].
  destruct (Ascii.eqb c ","); [discriminate|].
  destruct (Strings.IndexRune s ","); [discriminate | exact IH].
Qed.

Lemma getNextOption_remaining s :
  snd (getNextOption s)
  = match after_comma s with Some r => trimCommas r | None => "" end.
Proof.
  unfold getNextOption.
  destruct (Strings.IndexRune s ",") as [i|] eqn:Hi; cbn.
  - destruct (drop_IndexRune s i Hi) as (r & -> & ->). reflexivity.
  - now rewrite after_comma_none.
Qed.

Lemma trimCommas_start r : starts_with_comma (trimCommas r) = false.
Proof.
  induction r as [|c r IH]; [reflexivity|]. cbn.
  destruct (Ascii.eqb c ",") eqn:Hc; [exact IH | cbn; exact Hc].
Qed.

Lemma filter_split_trimCommas r :
  List.filter nonempty (split_commas (trimCommas r))
  = List.filter nonempty (split_commas r).
Proof.
  induction r as [|c r IH]; [reflexivity|]. cbn.
  destruct (Ascii.eqb c ",") eqn:Hc; [exact IH|]. cbn. now rewrite Hc.
Qed.

Lemma before_comma_nonempty s :
  s <> "" -> starts_with_comma s = false -> nonempty (before_comma s) = true.
Proof.
  destruct s as [|c s]; [congruence|]. cbn. intros _ ->. reflexivity.
Qed.

(** The loop of [NameAndArgs] collects the non-empty pieces of
    [remaining]. *)
Lemma collectArgs_split n remaining args :
  (String.length remaining <= n)%nat ->
  starts_with_comma remaining = false ->
  collectArgs n remaining args
  = (args ++ List.filter nonempty (split_commas remaining))%list.
Proof.
  revert remaining args. induction n as [|n IH]; intros remaining args Hn Hstart.
  - destruct remaining; [|cbn in Hn; lia]. cbn. now rewrite app_nil_r.
  - destruct remaining as [|c r]; [cbn; now rewrite app_nil_r|].
    cbn [collectArgs]. change (String.eqb (String c r) "") with false. cbv iota.
    pose proof (getNextOption_shorter (String c r) ltac:(discriminate)) as Hshort.
    pose proof (getNextOption_name (String c r)) as Hname.
    pose proof (getNextOption_remaining (String c r)) as Hrem.
    destruct (getNextOption (String c r)) as [next remaining'].
    cbn [fst snd] in Hshort, Hname, Hrem. subst next.
    rewrite (split_commas_eq (String c r)). cbn [List.filter].
    rewrite before_comma_nonempty by (assumption || discriminate).
    destruct (after_comma (String c r)) as [r2|]; subst remaining'.
    + rewrite IH.
      * rewrite filter_split_trimCommas, <- app_assoc. reflexivity.
      * cbn in Hn, Hshort. lia.
      * apply trimCommas_start.
    + destruct n; reflexivity.
Qed.

Lemma split_commas_no_comma s : Forall (fun piece => has_comma piece = false) (split_commas s).
Proof.
  induction s as [|c s IH]; cbn; [repeat constructor|].
  destruct (Ascii.eqb c ",") eqn:Hc; [constructor; [reflexivity | exact IH]|].
  destruct (split_commas s) as [|piece pieces].
  - repeat constructor. cbn. now rewrite Hc.
  - inversion IH as [|? ? Hp Hps]; subst. constructor; [|exact Hps].
    cbn. now rewrite Hc.
Qed.

Lemma NameAndArgs_args (f : StructField) :
  snd (NameAndArgs f)
  = List.filter nonempty (tl (split_commas (Get (Tag f) "request"))).
Proof.
  unfold NameAndArgs.
  pose proof (getNextOption_remaining (Get (Tag f) "request")) as Hrem.
  destruct (getNextOption (Get (Tag f) "request")) as [name remaining].
  cbn [snd] in Hrem.
  assert (Hc : collectArgs (String.length remaining) remaining []
               = List.filter nonempty (tl (split_commas (Get (Tag f) "request")))).
  { rewrite split_commas_eq. cbn [tl].
    destruct (after_comma (Get (Tag f) "request")) as [r|]; subst remaining.
    - rewrite collectArgs_split by (auto using trimCommas_start).
      apply filter_split_trimCommas.
    - reflexivity. }
  destruct (negb (String.eqb name "")); [exact Hc|].
  destruct (negb (String.eqb (Get (Tag f) "response") "")); [exact Hc|].
  destruct (negb (String.eqb (Get (Tag f) "db") "")
            && negb (String.eqb (Get (Tag f) "db") "-")); exact Hc.
Qed.

(** X1.  The options [NameAndArgs] returns are the non-empty pieces
    between the commas of the request tag, after its first piece, in
    order: repeated and trailing commas add no empty option, and no
    option holds a comma. *)
Theorem NameAndArgs_options (f : StructField) :
  snd (NameAndArgs f)
  = List.filter nonempty (tl (split_commas (Get (Tag f) "request")))
  /\ Forall (fun arg => arg <> "" /\ has_comma arg = false) (snd (NameAndArgs f)).
Proof.
  split; [apply NameAndArgs_args|].
  rewrite NameAndArgs_args. apply Forall_forall. intros arg Hin.
  apply list_elem_of_In, filter_In in Hin as [Hin Hne].
  split.
  - intros ->. discriminate.
  - pose proof (split_commas_no_comma (Get (Tag f) "request")) as Hall.
    rewrite Forall_forall in Hall. apply Hall, list_elem_of_In.
    destruct (split_commas (Get (Tag f) "request")); [destruct Hin | now right].
Qed.

Lemma split_commas_piece e :
  has_comma e = false -> split_commas e = [e].
Proof.
  induction e as [|c e IH]; [reflexivity|]. simpl.
  destruct (Ascii.eqb c ","); [discriminate|]. intros He. now rewrite IH.
Qed.

Lemma split_commas_app e s :
  has_comma e = false -> split_commas (e +:+ String "," s) = e :: split_commas s.
Proof.
  induction e as [|c e IH]; [reflexivity|]. simpl.
  destruct (Ascii.eqb c ","); [discriminate|]. intros He. now rewrite (IH He).
Qed.

(** Splitting undoes joining, for pieces without commas. *)
Lemma split_commas_Join (pieces : list string) :
  pieces <> [] ->
  Forall (fun piece => has_comma piece = false) pieces ->
  split_commas (Join pieces ",") = pieces.
Proof.
  induction pieces as [|e pieces IH]; [congruence|]. intros _ Hall.
  inversion Hall as [|? ? He Hrest]; subst.
  destruct pieces as [|e' pieces].
  - now apply split_commas_piece.
  - change (Join (e :: e' :: pieces) ",")
      with (e +:+ String "," (Join (e' :: pieces) ",")).
    rewrite split_commas_app by exact He.
    now rewrite IH.
Qed.

(** X2.  Reading a request tag written as a name and options joined by
    commas gives the options back, and the name as the key when it is
    not empty (names and options without commas, options not empty). *)
Theorem NameAndArgs_reads_joined_tag (f : StructField) (name : string)
    (options : list string) :
  has_comma name = false ->
  Forall (fun o => o <> "" /\ has_comma o = false) options ->
  Get (Tag f) "request" = Join (name :: options) "," ->
  snd (NameAndArgs f) = options
  /\ (name <> "" -> NameAndArgs f = (name, options)).
Proof.
  intros Hname Hopts Htag.
  assert (Hsplit : split_commas (Get (Tag f) "request") = name :: options).
  { rewrite Htag. apply split_commas_Join; [discriminate|].
    constructor; [exact Hname|]. eapply Forall_impl; [exact Hopts|].
    now intros o [_ Ho]. }
  assert (Hargs : snd (NameAndArgs f) = options).
  { rewrite NameAndArgs_args, Hsplit. cbn [tl].
    clear Hsplit Htag. induction Hopts as [|o os [Hne _] _ IH]; [reflexivity|].
    cbn. unfold nonempty at 1.
    destruct (String.eqb o "") eqn:E; [now apply String.eqb_eq in E|].
    cbn. now rewrite IH. }
  split; [exact Hargs|]. intros Hne.
  rewrite (surjective_pairing (NameAndArgs f)), Hargs. f_equal.
  rewrite NameAndArgs_key. unfold key_by_precedence, request_name.
  assert (Hb : before_comma (Get (Tag f) "request") = name).
  { rewrite split_commas_eq in Hsplit. now injection Hsplit. }
  rewrite Hb. cbn.
  destruct (String.eqb name "") eqn:E; [now apply String.eqb_eq in E | reflexivity].
Qed.

Lemma NameAndArgs_reads_joined_tag_witness :
  NameAndArgs (mkStructField "Foo" [("request", "name,optional,strict")] false)
  = ("name", ["optional"; "strict"]).
Proof.
  apply (NameAndArgs_reads_joined_tag _ "name" ["optional"; "strict"]).
  - reflexivity.
  - repeat constructor; discriminate.
  - reflexivity.
  - discriminate.
Defined.

(** ** Which option decides *)

Definition undecided (arg : string) : Prop := arg <> "optional" /\ arg <> "required".

Lemma requiredness_skip d (before rest : list string) :
  Forall undecided before ->
  requiredness d (before ++ rest) = requiredness d rest.
Proof.
  induction 1 as [|arg before [Ho Hr] _ IH]; [reflexivity|].
  cbn. apply String.eqb_neq in Ho, Hr. now rewrite Ho, Hr.
Qed.

(** X3.  [required] is the default when no option is "optional" or
    "required"; otherwise the first of the two among the options
    decides, whatever the default and the options after it are. *)
Theorem requiredness_first_option_decides (d : bool) :
  (forall args, Forall undecided args -> requiredness d args = d)
  /\ (forall before after,
        Forall undecided before ->
        requiredness d (before ++ "optional" :: after) = false
        /\ requiredness d (before ++ "required" :: after) = true).
Proof.
  split.
  - intros args Hargs. rewrite <- (app_nil_r args).
    now rewrite requiredness_skip.
  - intros before after Hb. now rewrite !requiredness_skip.
Qed.

Lemma requiredness_first_option_decides_witness :
  requiredness true ["strict"; "optional"; "required"] = false
  /\ requiredness false ["required"; "optional"] = true
  /\ requiredness false ["strict"] = false.
Proof.
  destruct (requiredness_first_option_decides true) as [_ Htrue].
  destruct (requiredness_first_option_decides false) as [Hdefault Hfalse].
  assert (Hstrict : Forall undecided ["strict"])
    by (repeat constructor; discriminate).
  split; [|split].
  - apply (Htrue ["strict"] ["required"]), Hstrict.
  - apply (Hfalse [] ["optional"]). constructor.
  - apply Hdefault, Hstrict.
Defined.

(** ** The message of [MissingFields] *)

Lemma drop_append p s : Strings.drop (String.length p) (p +:+ s) = s.
Proof. induction p as [|c p IH]; [reflexivity | exact IH]. Qed.

Lemma append_associative (a b c : string) : (a +:+ b) +:+ c = a +:+ (b +:+ c).
Proof.
  induction a as [|x a IH]; [reflexivity|].
  change (String x ((a +:+ b) +:+ c) = String x (a +:+ (b +:+ c))).
  now rewrite IH.
Qed.

Lemma Join_snoc (names : list string) (name : string) :
  names <> [] ->
  Join (names ++ [name]) "," = Join names "," +:+ "," +:+ name.
Proof.
  induction names as [|n names IH]; [congruence|]. intros _.
  destruct names as [|n' names]; [reflexivity|].
  change (Join ((n :: n' :: names) ++ [name]) ",")
    with (n +:+ "," +:+ Join ((n' :: names) ++ [name]) ",").
  rewrite IH by discriminate.
  change (Join (n :: n' :: names) ",") with (n +:+ "," +:+ Join (n' :: names) ",").
  now rewrite !append_associative.
Qed.

(** X13.  The message of a [MissingFields] that has names lists them in
    the order they were added, separated by commas: the names are read
    back from it by splitting at the commas (names without commas), and
    adding a name appends "," and the name. *)
Theorem Error_lists_the_names (err : MissingFields) :
  Names err <> [] ->
  (Forall (fun name => has_comma name = false) (Names err) ->
   split_commas (Strings.drop (String.length Error_prefix) (Error err)) = Names err)
  /\ (forall name, Error (AddMissingField err name) = Error err +:+ "," +:+ name).
Proof.
  intros Hne. split.
  - intros Hall. unfold Error. rewrite drop_append.
    now apply split_commas_Join.
  - intros name. unfold Error, AddMissingField. cbn [Names].
    rewrite Join_snoc by exact Hne.
    now rewrite !append_associative.
Qed.

Lemma Error_lists_the_names_witness :
  Error (AddMissingField (AddMissingField (mkMissingFields []) "age") "name")
  = "Missing value for fields: age,name".
Proof.
  destruct (Error_lists_the_names (AddMissingField (mkMissingFields []) "age"))
    as [_ Hadd]; [discriminate|].
  rewrite Hadd. reflexivity.
Defined.

(** ** The hooks of [setValue] *)

Lemma deferred_calls t copy post r :
  sv_calls (deferred t copy post r) = []
  \/ (is_Some post /\ sv_calls (deferred t copy post r) = [PostReceiveCall]).
Proof.
  destruct r as [tgt st]. unfold deferred.
  destruct post as [m|]; [|now left].
  destruct st; [right | now left | right];
    destruct (invoke_bound t m tt copy tgt); eauto.
Qed.

(** X4.  Whatever the type, the field and the value, [setValue] calls
    the hooks in the order [PreReceive], [Receive], [PostReceive], each
    at most once, [Receive] with the raw value it was given; it calls
    only hooks the type has, and none for a nil value. *)
Theorem setValue_calls_in_order PF C canAddr t field v :
  exists pre recv post : bool,
    sv_calls (setValue PF C canAddr t field v)
    = ((if pre then [PreReceiveCall] else [])
         ++ (if recv then [ReceiveCall v] else [])
         ++ (if post then [PostReceiveCall] else []))%list
    /\ (pre = true -> is_Some (capability PreReceive canAddr t) /\ is_nil v = false)
    /\ (recv = true -> is_Some (capability Receive canAddr t) /\ is_nil v = false)
    /\ (post = true -> is_Some (capability PostReceive canAddr t) /\ is_nil v = false).
Proof.
  rewrite setValue_eq. destruct (is_nil v) eqn:Hnil.
  { exists false, false, false.
    split; [now destruct (Kind_of t) | repeat split; discriminate]. }
  cbv beta zeta.
  assert (Hconv : forall tgt,
             exists recv post : bool,
               sv_calls
                 match capability Receive canAddr t with
                 | Some receiver =>
                     let (target', err) :=
                       invoke_bound t receiver v (allocated t field) tgt in
                     and_then [ReceiveCall v]
                       (deferred t (allocated t field) (capability PostReceive canAddr t)
                          (target', status_of err))
                 | None =>
                     deferred t (allocated t field) (capability PostReceive canAddr t)
                       (builtin PF C t tgt v)
                 end
               = ((if recv then [ReceiveCall v] else [])
                    ++ (if post then [PostReceiveCall] else []))%list
               /\ (recv = true -> is_Some (capability Receive canAddr t))
               /\ (post = true -> is_Some (capability PostReceive canAddr t))).
  { intros tgt. destruct (capability Receive canAddr t) as [receiver|].
    - destruct (invoke_bound t receiver v (allocated t field) tgt) as [tgt' err].
      cbn [and_then sv_calls].
      destruct (deferred_calls t (allocated t field) (capability PostReceive canAddr t)
                  (tgt', status_of err)) as [-> | [Hp ->]].
      + exists true, false. repeat split; eauto; discriminate.
      + exists true, true. repeat split; eauto.
    - destruct (deferred_calls t (allocated t field) (capability PostReceive canAddr t)
                  (builtin PF C t tgt v)) as [-> | [Hp ->]].
      + exists false, false. repeat split; discriminate.
      + exists false, true. repeat split; eauto; discriminate. }
  destruct (capability PreReceive canAddr t) as [preReceiver|].
  - destruct (invoke t preReceiver tt (allocated t field)) as [tgt' [e|]].
    + exists true, false, false. repeat split; eauto; discriminate.
    + destruct (Hconv tgt') as (recv & post & Hcalls & Hr & Hp).
      exists true, recv, post. cbn [and_then sv_calls]. rewrite Hcalls.
      repeat split; eauto.
  - destruct (Hconv (allocated t field)) as (recv & post & Hcalls & Hr & Hp).
    exists false, recv, post. rewrite Hcalls.
    repeat split; eauto; discriminate.
Qed.

(** ** Errors of a field of the target struct *)

(** The walk over the fields before a given one. *)
Definition walk_before PF C DR (params : gmap string raw)
    (before : list (StructField * type)) (targetValue : value) : walk :=
  fields_loop PF C DR params (unmarshalToValue PF C DR params) [] before O
              (mkWalk O Nil targetValue (mkMissingFields []) []).

(** When the conversion of a field of the target struct fails, the walk
    ends in the state that field left, and the call returns its error. *)
Lemma field_failure_ends_call PF C DR (params : gmap string raw)
    sname sms before f t after targetValue field v e :
  let w0 := walk_before PF C DR params before targetValue in
  let r := setValue PF C true t field v in
  parseErr w0 = Nil ->
  Field (target w0) (length before) = Some field ->
  binds f = true -> params !! key f = Some v ->
  sv_err r = Failed e ->
  UnmarshalParams_walk PF C DR params
    (TStruct sname sms (before ++ (f, t) :: after)) targetValue
  = mkWalk (matchedFields w0 + 1) (Failed e)
           (SetField (target w0) (length before) (sv_target r)) (missingErr w0)
           (calls w0 ++ map (HookCall [length before]) (sv_calls r))%list
  /\ UnmarshalParams PF C DR params
       (TStruct sname sms (before ++ (f, t) :: after)) targetValue
     = Returns (Some e).
Proof.
  intros w0 r Hw0 Hfield Hb Hv Herr.
  assert (Hwalk : UnmarshalParams_walk PF C DR params
                    (TStruct sname sms (before ++ (f, t) :: after)) targetValue
                  = mkWalk (matchedFields w0 + 1) (Failed e)
                      (SetField (target w0) (length before) (sv_target r)) (missingErr w0)
                      (calls w0 ++ map (HookCall [length before]) (sv_calls r))%list).
  { rewrite UnmarshalParams_walk_eq, unmarshalToValue_struct, fields_loop_app.
    change (fields_loop PF C DR params (unmarshalToValue PF C DR params) [] before O
              (mkWalk O Nil targetValue (mkMissingFields []) [])) with w0.
    rewrite fields_loop_cons by exact Hw0. cbn [Nat.add].
    rewrite (visit_present PF C DR params _ _ _ f t w0 field v) by assumption.
    cbv zeta. fold r. rewrite Herr.
    rewrite fields_loop_stopped by discriminate. reflexivity. }
  split; [exact Hwalk|].
  rewrite UnmarshalParams_eq, <- UnmarshalParams_walk_eq, Hwalk. reflexivity.
Qed.

(** X5.  When [PreReceive] returns an error for a field of the target
    struct reached without error and given a value that is not nil, the
    call returns that error; the only call made for the field is
    [PreReceive], and the field is as [PreReceive] left it: neither
    [Receive], nor a conversion, nor [PostReceive] took place. *)
Theorem PreReceive_error_ends_call PF C DR (params : gmap string raw)
    sname sms before f t after targetValue field v preReceiver field' e :
  let w0 := walk_before PF C DR params before targetValue in
  let w := UnmarshalParams_walk PF C DR params
             (TStruct sname sms (before ++ (f, t) :: after)) targetValue in
  parseErr w0 = Nil ->
  Field (target w0) (length before) = Some field ->
  binds f = true -> params !! key f = Some v -> is_nil v = false ->
  capability PreReceive true t = Some preReceiver ->
  invoke t preReceiver tt (allocated t field) = (field', Some e) ->
  UnmarshalParams PF C DR params
    (TStruct sname sms (before ++ (f, t) :: after)) targetValue
  = Returns (Some e)
  /\ calls w = (calls w0 ++ [HookCall [length before] PreReceiveCall])%list
  /\ target w = SetField (target w0) (length before) field'.
Proof.
  intros w0 w Hw0 Hfield Hb Hv Hnil Hpre Hinv.
  assert (Hset : setValue PF C true t field v = mkSet field' (Failed e) [PreReceiveCall]).
  { rewrite setValue_eq, Hnil. cbv beta zeta. now rewrite Hpre, Hinv. }
  destruct (field_failure_ends_call PF C DR params sname sms before f t after
              targetValue field v e Hw0 Hfield Hb Hv) as [Hwalk Hcall].
  { now rewrite Hset. }
  split; [exact Hcall|]. unfold w. rewrite Hwalk, Hset. cbn. auto.
Qed.

(** [type Checked int], whose [PreReceive] always refuses. *)
Definition Checked : type :=
  TBasic "Checked" (Int W0)
    {| PreReceive :=
         Some (mkMethod true
                 (fun _ self => (self, Some (MethodError "not now"))));
       Receive := None; PostReceive := None; DefaultValue := None |}.

Lemma PreReceive_error_ends_call_witness :
  let params : gmap string raw := {["age" := RInt W0 3; "n" := RInt W0 7]} in
  let Model :=
    TStruct "Model" no_methods
      [(mkStructField "Age" [] false, t_int); (mkStructField "N" [] false, Checked)] in
  UnmarshalParams ParseFloat_none Convert_identical true params Model (Zero Model)
  = Returns (Some (MethodError "not now"))
  /\ target (UnmarshalParams_walk ParseFloat_none Convert_identical true params
                                  Model (Zero Model))
     = VStruct [VInt 3; VInt 0].
Proof.
  intros params Model.
  destruct (PreReceive_error_ends_call ParseFloat_none Convert_identical true params
              "Model" no_methods [(mkStructField "Age" [] false, t_int)]
              (mkStructField "N" [] false) Checked [] (Zero Model)
              (VInt 0) (RInt W0 7)
              (mkMethod true (fun _ self => (self, Some (MethodError "not now"))))
              (VInt 0) (MethodError "not now"))
    as (Hcall & _ & Htarget);
    try (vm_compute; reflexivity).
  split; [exact Hcall|].
  etransitivity; [exact Htarget|]. vm_compute. reflexivity.
Defined.

(** X6.  A nil parameter for a field of the target struct that is not a
    pointer makes the call return "Cannot set non-pointer value to
    null", whatever hooks the type of the field has: no method is
    called for the field and the target is not written.  For a pointer
    field, the field becomes nil, it counts as matched, and no method is
    called either. *)
Theorem nil_parameter PF C DR (params : gmap string raw)
    sname sms before f t after targetValue field :
  let w0 := walk_before PF C DR params before targetValue in
  let w := UnmarshalParams_walk PF C DR params
             (TStruct sname sms (before ++ (f, t) :: after)) targetValue in
  parseErr w0 = Nil ->
  Field (target w0) (length before) = Some field ->
  binds f = true -> params !! key f = Some RNil ->
  (Kind_of t <> Ptr ->
   UnmarshalParams PF C DR params
     (TStruct sname sms (before ++ (f, t) :: after)) targetValue
   = Returns (Some (errors_New "Cannot set non-pointer value to null"))
   /\ calls w = calls w0 /\ target w = target w0)
  /\ (Kind_of t = Ptr ->
      visit PF C DR params (unmarshalToValue PF C DR params) [] (length before) f t w0
      = mkWalk (matchedFields w0 + 1) Nil
               (SetField (target w0) (length before) VNil)
               (missingErr w0) (calls w0)).
Proof.
  intros w0 w Hw0 Hfield Hb Hv. split; intros Hk.
  - assert (Hset : setValue PF C true t field RNil
                   = mkSet field
                       (Failed (errors_New "Cannot set non-pointer value to null")) []).
    { rewrite setValue_eq. cbn [is_nil]. destruct (Kind_of t); congruence. }
    destruct (field_failure_ends_call PF C DR params sname sms before f t after
                targetValue field RNil
                (errors_New "Cannot set non-pointer value to null")
                Hw0 Hfield Hb Hv) as [Hwalk Hcall].
    { now rewrite Hset. }
    split; [exact Hcall|]. unfold w. rewrite Hwalk, Hset. cbn [calls target sv_calls sv_target map].
    rewrite app_nil_r. split; [reflexivity|]. now apply SetField_same.
  - rewrite (visit_present PF C DR params _ _ _ f t w0 field RNil) by assumption.
    cbv zeta. rewrite setValue_eq. cbn [is_nil]. rewrite Hk.
    cbn [sv_err sv_target sv_calls map]. rewrite app_nil_r.
    destruct t; try discriminate. cbn [Zero].
    now destruct field.
Qed.

Lemma nil_parameter_witness :
  let params : gmap string raw := {["email" := RNil]} in
  let Model := TStruct "Model" no_methods [(mkStructField "Email" [] false, Email)] in
  UnmarshalParams ParseFloat_none Convert_identical true params Model
                  (VStruct [VString "old@example.org"])
  = Returns (Some (errors_New "Cannot set non-pointer value to null")).
Proof.
  intros params Model.
  destruct (nil_parameter ParseFloat_none Convert_identical true params
              "Model" no_methods [] (mkStructField "Email" [] false) Email []
              (VStruct [VString "old@example.org"]) (VString "old@example.org")
              eq_refl eq_refl eq_refl eq_refl) as [Hvalue _].
  apply Hvalue. discriminate.
Defined.

(** ** Integers keep to their width *)

Definition int_range (width : IntWidth) (z : Z) : Prop :=
  - 2 ^ (bits width - 1) <= z < 2 ^ (bits width - 1).

Lemma wrap_signed_range width x : int_range width (wrap_signed (bits width) x).
Proof.
  unfold int_range, wrap_signed.
  assert (Hpow : 2 ^ bits width = 2 * 2 ^ (bits width - 1)).
  { rewrite <- Z.pow_succ_r by (destruct width; cbn; lia). f_equal. lia. }
  pose proof (Z.mod_pos_bound (x + 2 ^ (bits width - 1)) (2 ^ bits width)
                ltac:(apply Z.pow_pos_nonneg; destruct width; cbn; lia)).
  lia.
Qed.

Lemma wrap_signed_id width x : int_range width x -> wrap_signed (bits width) x = x.
Proof.
  unfold int_range, wrap_signed. intros Hx.
  assert (Hpow : 2 ^ bits width = 2 * 2 ^ (bits width - 1)).
  { rewrite <- Z.pow_succ_r by (destruct width; cbn; lia). f_equal. lia. }
  rewrite Z.mod_small by lia. lia.
Qed.

(** X7.  [setInt] leaves in an integer field a value of the width of
    its kind, whatever it is given.  A string that [ParseInt] reads is
    never an error for the field: the number is stored as it is when it
    fits the width, and wrapped around (as [SetInt] does) when it does
    not. *)
Theorem setInt_keeps_the_width width field v :
  (forall z, field = VInt z -> int_range width z) ->
  (forall z, fst (setInt true width field v) = VInt z -> int_range width z)
  /\ (forall s n,
        v = RString s -> Strconv.ParseInt s = inl n ->
        setInt true width field v = (VInt (wrap_signed (bits width) n), Nil)
        /\ (int_range width n -> setInt true width field v = (VInt n, Nil))).
Proof.
  intros Hfield. split.
  - intros z. unfold setInt, store.
    destruct v as [|s|w x|w x|x|x|b|l]; cbn [fst]; try apply Hfield;
      try (intros [= <-]; apply wrap_signed_range).
    destruct (Strconv.ParseInt s) as [n|err]; cbn [fst]; [|apply Hfield].
    intros [= <-]. apply wrap_signed_range.
  - intros s n -> Hparse. unfold setInt, store. rewrite Hparse.
    split; [reflexivity|]. intros Hn. now rewrite wrap_signed_id.
Qed.

Lemma setInt_keeps_the_width_witness :
  setInt true W8 (VInt 0) (RString "300") = (VInt 44, Nil)
  /\ setInt true W16 (VInt 0) (RString "300") = (VInt 300, Nil).
Proof.
  split.
  - destruct (setInt_keeps_the_width W8 (VInt 0) (RString "300")) as [_ Hs].
    + intros z [= <-]. vm_compute. split; [discriminate | reflexivity].
    + destruct (Hs "300" 300 eq_refl eq_refl) as [Hwrap _]. exact Hwrap.
  - destruct (setInt_keeps_the_width W16 (VInt 0) (RString "300")) as [_ Hs].
    + intros z [= <-]. vm_compute. split; [discriminate | reflexivity].
    + destruct (Hs "300" 300 eq_refl eq_refl) as [_ Hfits]. apply Hfits.
      vm_compute. split; [discriminate | reflexivity].
Defined.

(** ** Matched fields and unmatched parameters *)

Section Matching.

Variable PF : string -> spec_float + error.
Variable C : raw -> type -> option value.
Variable DR : bool.
Variable params : gmap string raw.

(** The matched keys one field contributes. *)
Definition matched_of (ft : StructField * type) : list string :=
  if Anonymous (fst ft) then matched_keys params (snd ft)
  else if binds (fst ft) && present params (key (fst ft)) then [key (fst ft)] else [].

Lemma filter_flat_map {A B} (p : B -> bool) (g : A -> list B) (l : list A) :
  List.filter p (flat_map g l) = flat_map (fun a => List.filter p (g a)) l.
Proof.
  induction l as [|a l IH]; [reflexivity|]. cbn.
  now rewrite List.filter_app, IH.
Qed.

Lemma matched_keys_struct name ms fields :
  matched_keys params (TStruct name ms fields) = flat_map matched_of fields.
Proof.
  unfold matched_keys. cbn [bound_keys]. rewrite filter_flat_map.
  apply flat_map_ext. intros [f ty]. unfold matched_of. cbn [fst snd].
  destruct (Anonymous f); [reflexivity|].
  destruct (binds f); [|reflexivity]. cbn.
  now destruct (present params (key f)).
Qed.

(** A count that stays below [total] and reaches it when there is no
    error. *)
Definition counts_to (count : nat) (err : status) (total : nat) : Prop :=
  (count <= total)%nat /\ (err = Nil -> count = total).

Lemma visit_count rec here i f ty w :
  (forall field m p,
      let r := rec ty field m p in
      counts_to (matchedFields r) (parseErr r) (length (matched_keys params ty))) ->
  let w' := visit PF C DR params rec here i f ty w in
  (matchedFields w <= matchedFields w')%nat
  /\ counts_to (matchedFields w' - matchedFields w) (parseErr w')
               (length (matched_of (f, ty))).
Proof.
  intros Hrec w'. subst w'. unfold matched_of. cbn [fst snd].
  destruct (Field (target w) i) as [field|] eqn:Hfield.
  2:{ rewrite visit_eq, Hfield. cbn. split; [lia|]. split; [lia | discriminate]. }
  destruct (field_cases params f) as [Ha|[[Ha He]|[[Ha [He Hk]]|[[Hb [v Hv]]|[Hb Hv]]]]].
  - rewrite (visit_embedded PF C DR params rec here i f ty w field) by assumption.
    rewrite Ha. cbv zeta. cbn [matchedFields parseErr].
    destruct (Hrec field (missingErr w) (here ++ [i])%list) as [Hle Heq].
    split; [lia|]. split; [lia|]. intros E. specialize (Heq E). lia.
  - rewrite visit_unexported by eauto.
    unfold binds. rewrite Ha, He. cbn. split; [lia|]. split; [lia | intros _; lia].
  - rewrite visit_skipped by eauto.
    unfold binds. rewrite Ha, He, Hk. cbn. split; [lia|]. split; [lia | intros _; lia].
  - rewrite (visit_present PF C DR params rec here i f ty w field v) by assumption.
    assert (Ha : Anonymous f = false).
    { unfold binds in Hb. now destruct (Anonymous f). }
    rewrite Ha, Hb. unfold present. rewrite Hv.
    cbv zeta. cbn. split; [lia|]. split; [lia | intros _; lia].
  - assert (Ha : Anonymous f = false).
    { unfold binds in Hb. now destruct (Anonymous f). }
    rewrite Ha, Hb. unfold present. unfold absent in Hv.
    destruct (params !! key f) eqn:E; [discriminate|]. cbn [andb length].
    assert (Hsame : matchedFields (visit PF C DR params rec here i f ty w)
                    = matchedFields w).
    { destruct (required DR f) eqn:Hr.
      - rewrite visit_absent_required; eauto. unfold absent. now rewrite E.
      - rewrite (visit_absent_optional PF C DR params rec here i f ty w field)
          by (try assumption; unfold defaulted, absent; now rewrite Hb, E, Hr).
        destruct (method_set DefaultValue ty) as [d|]; [|reflexivity].
        destruct (nil_receiver_panics ty d field); [reflexivity|].
        now destruct (invoke ty d tt field). }
    rewrite Hsame. split; [lia|]. split; [lia | intros _; lia].
Qed.

Lemma fields_loop_count rec here fields i w :
  (forall ty, In ty (map snd fields) ->
     forall field m p,
       let r := rec ty field m p in
       counts_to (matchedFields r) (parseErr r) (length (matched_keys params ty))) ->
  parseErr w = Nil ->
  let w' := fields_loop PF C DR params rec here fields i w in
  (matchedFields w <= matchedFields w')%nat
  /\ counts_to (matchedFields w' - matchedFields w) (parseErr w')
               (length (flat_map matched_of fields)).
Proof.
  revert i w. induction fields as [|[f ty] rest IH]; intros i w Hrec Hw w'; subst w'.
  - rewrite fields_loop_nil. cbn. split; [lia|]. split; [lia | intros _; lia].
  - rewrite fields_loop_cons by assumption. cbn [flat_map]. rewrite length_app.
    destruct (visit_count rec here i f ty w) as (Hle1 & Hc1 & He1).
    { apply Hrec. now left. }
    set (w1 := visit PF C DR params rec here i f ty w) in *.
    assert (Hw1 : parseErr w1 = Nil \/ parseErr w1 <> Nil)
      by (destruct (parseErr w1); auto; right; discriminate).
    destruct Hw1 as [Hw1|Hw1].
    + destruct (IH (S i) w1) as (Hle2 & Hc2 & He2); [|exact Hw1|].
      { intros ty' Hin. apply Hrec. now right. }
      specialize (He1 Hw1). split; [lia|]. split; [lia|].
      intros E. specialize (He2 E). lia.
    + rewrite fields_loop_stopped by exact Hw1.
      split; [lia|]. split; [lia | congruence].
Qed.

Lemma unmarshalToValue_count t :
  forall field m p,
    let r := unmarshalToValue PF C DR params t field m p in
    counts_to (matchedFields r) (parseErr r) (length (matched_keys params t)).
Proof.
  induction t as [name k ms | elem _ | name ms fields IH] using type_ind;
    intros field m p r; subst r.
  - rewrite unmarshalToValue_not_struct by discriminate.
    cbn. split; [lia | discriminate].
  - rewrite unmarshalToValue_not_struct by discriminate.
    cbn. split; [lia | discriminate].
  - rewrite unmarshalToValue_struct, matched_keys_struct.
    destruct (fields_loop_count (unmarshalToValue PF C DR params) p fields O
                (mkWalk O Nil field m [])) as (_ & Hle & Heq); [|reflexivity|].
    + intros ty Hin.
      apply list_elem_of_In, list_elem_of_fmap in Hin as [[f ty'] [-> Hin]].
      rewrite Forall_forall in IH. apply (IH (f, ty')), Hin.
    + cbn [matchedFields] in Hle, Heq. rewrite Nat.sub_0_r in Hle, Heq.
      split; assumption.
Qed.

Lemma matched_fields_count_aux t v :
  let w := UnmarshalParams_walk PF C DR params t v in
  (matchedFields w <= length (matched_keys params t))%nat
  /\ (parseErr w = Nil -> matchedFields w = length (matched_keys params t)).
Proof.
  intros w. subst w. rewrite UnmarshalParams_walk_eq.
  apply unmarshalToValue_count.
Qed.

(** X8.  The number of matched fields never exceeds the number of bound
    fields whose key is a parameter, embedded structs included, and it
    is that number when no error stopped the traversal: two fields that
    share a key count twice. *)
Theorem matched_fields_count t v :
  let w := UnmarshalParams_walk PF C DR params t v in
  (matchedFields w <= length (matched_keys params t))%nat
  /\ (parseErr w = Nil -> matchedFields w = length (matched_keys params t)).
Proof.
  apply matched_fields_count_aux.
Qed.

Lemma size_list_to_set_le (l : list string) :
  (size (list_to_set l : gset string) <= length l)%nat.
Proof.
  induction l as [|x l IH]; cbn [list_to_set length].
  - rewrite size_empty. lia.
  - rewrite size_union_alt, size_singleton.
    assert (Hsub : (list_to_set l : gset string) ∖ {[x]} ⊆ list_to_set l)
      by (apply subseteq_difference_l; reflexivity).
    apply subseteq_size in Hsub. lia.
Qed.

Lemma matched_keys_in t k : In k (matched_keys params t) <-> In k (bound_keys t) /\ is_Some (params !! k).
Proof.
  unfold matched_keys, present. rewrite filter_In.
  destruct (params !! k) eqn:E; split; intros [H1 H2]; split; eauto;
    try discriminate. now destruct H2.
Qed.

Lemma conclude_without_error w :
  parseErr w = Nil -> (size params <= matchedFields w)%nat ->
  conclude params w
  = if HasMissingFields (missingErr w)
    then Returns (Some (MissingFieldsError (missingErr w)))
    else Returns None.
Proof.
  intros Hw Hle. unfold conclude. rewrite Hw.
  apply Nat.ltb_ge in Hle. now rewrite Hle.
Qed.

(** X9.  When every parameter is the key of some bound field and no
    error stops the traversal, the call does not end on "More
    parameters passed than this model has fields.": it returns the
    missing fields, or nil when there is none. *)
Theorem known_parameters_are_accepted t v :
  let w := UnmarshalParams_walk PF C DR params t v in
  (forall k, is_Some (params !! k) -> In k (bound_keys t)) ->
  parseErr w = Nil ->
  UnmarshalParams PF C DR params t v
  = if HasMissingFields (missingErr w)
    then Returns (Some (MissingFieldsError (missingErr w)))
    else Returns None.
Proof.
  intros w Hknown Hw.
  rewrite UnmarshalParams_eq, <- UnmarshalParams_walk_eq. fold w.
  apply conclude_without_error; [exact Hw|].
  destruct (matched_fields_count_aux t v) as [_ Heq].
  fold w in Heq. rewrite (Heq Hw), <- size_dom.
  etransitivity; [|apply size_list_to_set_le].
  apply subseteq_size. intros k Hk.
  apply elem_of_dom in Hk.
  apply elem_of_list_to_set, list_elem_of_In, matched_keys_in. auto.
Qed.

(** X10.  When the keys of the bound fields are pairwise distinct and
    no error stops the traversal, a parameter that is the key of no
    bound field makes the call return "More parameters passed than this
    model has fields.". *)
Theorem unknown_parameter_is_refused t v k :
  let w := UnmarshalParams_walk PF C DR params t v in
  NoDup (bound_keys t) ->
  parseErr w = Nil ->
  is_Some (params !! k) -> ~ In k (bound_keys t) ->
  UnmarshalParams PF C DR params t v = Returns (Some moreParameters).
Proof.
  intros w Hnodup Hw Hk Hnot.
  rewrite UnmarshalParams_eq, <- UnmarshalParams_walk_eq. fold w.
  unfold conclude. rewrite Hw.
  destruct (matched_fields_count_aux t v) as [_ Heq].
  fold w in Heq. rewrite (Heq Hw).
  assert (Hlt : (length (matched_keys params t) < size params)%nat).
  { rewrite <- size_dom.
    rewrite <- (size_list_to_set (C:=gset string)) by (unfold matched_keys; apply NoDup_ListNoDup, List.NoDup_filter, NoDup_ListNoDup, Hnodup).
    apply subset_size. split.
    - intros x Hx. apply elem_of_list_to_set, list_elem_of_In, matched_keys_in in Hx.
      apply elem_of_dom. tauto.
    - intros Hsub. apply Hnot.
      assert (Hin : k ∈ (list_to_set (matched_keys params t) : gset string))
        by (apply Hsub, elem_of_dom, Hk).
      apply elem_of_list_to_set, list_elem_of_In, matched_keys_in in Hin. tauto. }
  apply Nat.ltb_lt in Hlt. now rewrite Hlt.
Qed.

End Matching.

Lemma matched_fields_count_witness :
  let params : gmap string raw := {["age" := RInt W0 30]} in
  matchedFields (UnmarshalParams_walk ParseFloat_none Convert_identical true params
                                      Person (Zero Person))
  = 1%nat.
Proof.
  intros params.
  destruct (matched_fields_count ParseFloat_none Convert_identical true params
              Person (Zero Person)) as [_ Heq].
  rewrite Heq; vm_compute; reflexivity.
Defined.

Lemma known_parameters_are_accepted_witness :
  let params : gmap string raw := {["age" := RInt W0 30]} in
  UnmarshalParams ParseFloat_none Convert_identical true params Person (Zero Person)
  = Returns (Some (MissingFieldsError (mkMissingFields ["name"]))).
Proof.
  intros params.
  rewrite (known_parameters_are_accepted ParseFloat_none Convert_identical true params
             Person (Zero Person)).
  - vm_compute. reflexivity.
  - intros k [x Hk]. apply lookup_singleton_Some in Hk as [<- _].
    vm_compute. auto.
  - vm_compute. reflexivity.
Defined.

Lemma unknown_parameter_is_refused_witness :
  let params : gmap string raw := {["age" := RInt W0 30; "zip" := RString "75"]} in
  UnmarshalParams ParseFloat_none Convert_identical true params Person (Zero Person)
  = Returns (Some moreParameters).
Proof.
  intros params.
  apply (unknown_parameter_is_refused ParseFloat_none Convert_identical true params
           Person (Zero Person) "zip").
  - apply (bool_decide_unpack _). vm_compute. reflexivity.
  - vm_compute. reflexivity.
  - exists (RString "75"). vm_compute. reflexivity.
  - vm_compute. intros [H|[H|[]]]; discriminate.
Defined.

(** Two fields under one key both count: a parameter no field knows
    goes unnoticed.  This is why [unknown_parameter_is_refused] asks for
    distinct keys. *)
Example shared_key_hides_a_parameter :
  let Model :=
    TStruct "Model" no_methods
      [(mkStructField "A" [("request", "x")] false, t_int);
       (mkStructField "B" [("request", "x")] false, t_int)] in
  let params : gmap string raw := {["x" := RInt W0 1; "stray" := RInt W0 2]} in
  UnmarshalParams ParseFloat_none Convert_identical true params Model (Zero Model)
  = Returns None.
Proof. vm_compute. reflexivity. Qed.

(** ** What the traversal leaves alone *)

Section LeftAlone.

Variable PF : string -> spec_float + error.
Variable C : raw -> type -> option value.
Variable DR : bool.
Variable params : gmap string raw.

Definition field_count (targetValue : value) : option nat :=
  match targetValue with
  | VStruct vs => Some (length vs)
  | _ => None
  end.

Lemma SetField_count targetValue i x :
  field_count (SetField targetValue i x) = field_count targetValue.
Proof. destruct targetValue; cbn; try reflexivity. now rewrite length_insert. Qed.

Lemma Field_SetField_ne targetValue i k x :
  i <> k -> Field (SetField targetValue i x) k = Field targetValue k.
Proof.
  intros Hne. destruct targetValue; cbn; try reflexivity.
  now apply list_lookup_insert_ne.
Qed.

(** A visit writes to the field it visits, or to nothing. *)
Lemma visit_writes_one rec here i f ty w :
  target (visit PF C DR params rec here i f ty w) = target w
  \/ exists x, target (visit PF C DR params rec here i f ty w) = SetField (target w) i x.
Proof.
  destruct (Field (target w) i) as [field|] eqn:Hfield.
  2:{ rewrite visit_eq, Hfield. now left. }
  destruct (field_cases params f) as [Ha|[[Ha He]|[[Ha [He Hk]]|[[Hb [v Hv]]|[Hb Hv]]]]].
  - rewrite (visit_embedded PF C DR params rec here i f ty w field) by assumption.
    right. eauto.
  - rewrite visit_unexported by eauto. now left.
  - rewrite visit_skipped by eauto. now left.
  - rewrite (visit_present PF C DR params rec here i f ty w field v) by assumption.
    right. eauto.
  - destruct (required DR f) eqn:Hr.
    + rewrite visit_absent_required by eauto. now left.
    + rewrite (visit_absent_optional PF C DR params rec here i f ty w field)
        by (try assumption; unfold defaulted; now rewrite Hb, Hv, Hr).
      destruct (method_set DefaultValue ty) as [d|]; [|now left].
      destruct (nil_receiver_panics ty d field); [now left|].
      destruct (invoke ty d tt field). right. eauto.
Qed.

Lemma visit_left_alone rec here i f ty w :
  left_alone params DR f ty = true ->
  target (visit PF C DR params rec here i f ty w) = target w.
Proof.
  unfold left_alone. intros H.
  apply andb_prop in H as [Ha H]. apply negb_true_iff in Ha.
  destruct (Field (target w) i) as [field|] eqn:Hfield.
  2:{ rewrite visit_eq, Hfield. reflexivity. }
  destruct (field_cases params f) as [Ha'|[[_ He]|[[_ [He Hk]]|[[Hb [v Hv]]|[Hb Hv]]]]].
  - congruence.
  - now rewrite visit_unexported by eauto.
  - now rewrite visit_skipped by eauto.
  - exfalso. rewrite Hb in H. unfold absent in H. rewrite Hv in H. discriminate.
  - rewrite Hb, Hv in H. cbn in H.
    destruct (required DR f) eqn:Hr.
    + now rewrite visit_absent_required by eauto.
    + rewrite (visit_absent_optional PF C DR params rec here i f ty w field)
        by (try assumption; unfold defaulted; now rewrite Hb, Hv, Hr).
      cbn in H. now destruct (method_set DefaultValue ty).
Qed.

Lemma fields_loop_left_alone rec here rest i w k :
  let w' := fields_loop PF C DR params rec here rest i w in
  field_count (target w') = field_count (target w)
  /\ ((forall f ty, (i <= k)%nat -> rest !! (k - i)%nat = Some (f, ty) ->
                    left_alone params DR f ty = true) ->
      Field (target w') k = Field (target w) k).
Proof.
  revert i w. induction rest as [|[f0 ty0] rest IH]; intros i w w'; subst w'.
  - rewrite fields_loop_nil. auto.
  - rewrite fields_loop_eq. destruct (parseErr w); auto.
    destruct (IH (S i) (visit PF C DR params rec here i f0 ty0 w)) as [Hcount Hsame].
    split.
    + rewrite Hcount.
      destruct (visit_writes_one rec here i f0 ty0 w) as [-> | [x ->]];
        [reflexivity | apply SetField_count].
    + intros Hk. rewrite Hsame.
      * destruct (decide (i = k)) as [->|Hne].
        -- rewrite visit_left_alone; [reflexivity|].
           apply (Hk f0 ty0); [lia|]. now rewrite Nat.sub_diag.
        -- destruct (visit_writes_one rec here i f0 ty0 w) as [-> | [x ->]];
             [reflexivity | now apply Field_SetField_ne].
      * intros f ty Hle Hl. apply Hk; [lia|].
        replace (k - i)%nat with (S (k - S i)) by lia. exact Hl.
Qed.

(** X11.  The traversal of a struct keeps the number of its fields, and
    never writes to a field it has no value for: one that is not
    exported, or skipped by a "-", or without a parameter and either
    required or of a type without [DefaultValue]. *)
Theorem untouched_fields name ms fields vs m here :
  let w := unmarshalToValue PF C DR params (TStruct name ms fields) (VStruct vs) m here in
  (exists vs', target w = VStruct vs' /\ length vs' = length vs)
  /\ (forall i f ty,
        fields !! i = Some (f, ty) -> left_alone params DR f ty = true ->
        Field (target w) i = vs !! i).
Proof.
  intros w. subst w. rewrite unmarshalToValue_struct. split.
  - destruct (fields_loop_left_alone (unmarshalToValue PF C DR params) here fields O
                (mkWalk O Nil (VStruct vs) m []) O) as [Hcount _].
    cbn [target] in Hcount.
    destruct (target _) as [| | | | | | | |vs']; try discriminate.
    exists vs'. split; [reflexivity | now injection Hcount].
  - intros i f ty Hi Hleft.
    destruct (fields_loop_left_alone (unmarshalToValue PF C DR params) here fields O
                (mkWalk O Nil (VStruct vs) m []) i) as [_ Hsame].
    rewrite Hsame; [reflexivity|].
    intros f' ty' _. rewrite Nat.sub_0_r, Hi. now intros [= <- <-].
Qed.

End LeftAlone.

(** [struct { Age int; secret string; Note string `request:"-"` }]: the
    second and third fields keep what they hold. *)
Lemma untouched_fields_witness :
  let params : gmap string raw :=
    {["age" := RInt W0 30; "secret" := RString "x"; "note" := RString "y"]} in
  let fields :=
    [(mkStructField "Age" [] false, t_int);
     (mkStructField "secret" [] false, t_string);
     (mkStructField "Note" [("request", "-")] false, t_string)] in
  let w := unmarshalToValue ParseFloat_none Convert_identical true params
             (TStruct "Model" no_methods fields)
             (VStruct [VInt 0; VString "mine"; VString "kept"]) (mkMissingFields []) [] in
  Field (target w) 1 = Some (VString "mine")
  /\ Field (target w) 2 = Some (VString "kept").
Proof.
  intros params fields w.
  destruct (untouched_fields ParseFloat_none Convert_identical true params
              "Model" no_methods fields [VInt 0; VString "mine"; VString "kept"]
              (mkMissingFields []) []) as [_ Hsame].
  split.
  - apply (Hsame 1%nat (mkStructField "secret" [] false) t_string); reflexivity.
  - apply (Hsame 2%nat (mkStructField "Note" [("request", "-")] false) t_string);
      reflexivity.
Defined.

(** ** A call without parameters *)

Section NoParameters.

Variable PF : string -> spec_float + error.
Variable C : raw -> type -> option value.
Variable DR : bool.

(** Nothing is matched and no error is returned along the way. *)
Definition quiet (w : walk) : Prop :=
  matchedFields w = O /\ forall e, parseErr w <> Failed e.

Lemma visit_quiet rec here i f ty w :
  (forall field m p, quiet (rec ty field m p)) ->
  quiet w -> quiet (visit PF C DR ∅ rec here i f ty w).
Proof.
  intros Hrec [Hm He].
  destruct (Field (target w) i) as [field|] eqn:Hfield.
  2:{ rewrite visit_eq, Hfield. split; [exact Hm | discriminate]. }
  destruct (field_cases ∅ f) as [Ha|[[Ha Hx]|[[Ha [Hx Hk]]|[[Hb [v Hv]]|[Hb Hv]]]]].
  - rewrite (visit_embedded PF C DR ∅ rec here i f ty w field) by assumption.
    destruct (Hrec field (missingErr w) (here ++ [i])%list) as [Hm' He'].
    cbv zeta. split; [cbn; lia | exact He'].
  - rewrite visit_unexported by eauto. now split.
  - rewrite visit_skipped by eauto. now split.
  - now rewrite lookup_empty in Hv.
  - destruct (required DR f) eqn:Hr.
    + rewrite visit_absent_required by eauto. now split.
    + rewrite (visit_absent_optional PF C DR ∅ rec here i f ty w field)
        by (try assumption; unfold defaulted; now rewrite Hb, Hv, Hr).
      destruct (method_set DefaultValue ty) as [d|]; [|now split].
      destruct (nil_receiver_panics ty d field); [split; [exact Hm | discriminate]|].
      destruct (invoke ty d tt field). cbv zeta. split; [exact Hm|].
      cbn [parseErr]. intros e. destruct (sv_err _); [apply He | apply He | discriminate].
Qed.

Lemma fields_loop_quiet rec here fields i w :
  (forall ty, In ty (map snd fields) -> forall field m p, quiet (rec ty field m p)) ->
  quiet w -> quiet (fields_loop PF C DR ∅ rec here fields i w).
Proof.
  revert i w. induction fields as [|[f ty] rest IH]; intros i w Hrec Hw.
  - now rewrite fields_loop_nil.
  - rewrite fields_loop_eq. destruct (parseErr w); try exact Hw.
    apply IH.
    + intros ty' Hin. apply Hrec. now right.
    + apply visit_quiet; [|exact Hw]. apply Hrec. now left.
Qed.

Lemma unmarshalToValue_quiet t :
  forall field m p, quiet (unmarshalToValue PF C DR ∅ t field m p).
Proof.
  induction t as [name k ms | elem _ | name ms fields IH] using type_ind;
    intros field m p.
  - rewrite unmarshalToValue_not_struct by discriminate. split; [reflexivity | discriminate].
  - rewrite unmarshalToValue_not_struct by discriminate. split; [reflexivity | discriminate].
  - rewrite unmarshalToValue_struct. apply fields_loop_quiet.
    + intros ty Hin.
      apply list_elem_of_In, list_elem_of_fmap in Hin as [[f ty'] [-> Hin]].
      rewrite Forall_forall in IH. apply (IH (f, ty')), Hin.
    + split; [reflexivity | discriminate].
Qed.

(** X12.  A call without parameters never returns a conversion error
    nor "More parameters passed than this model has fields.": unless
    it panics, it returns nil when no bound field is required, and
    otherwise the [MissingFields] that lists the keys of all the
    required bound fields, in the order of the traversal. *)
Theorem call_without_parameters t v :
  UnmarshalParams PF C DR ∅ t v = Panics
  \/ (missing_keys DR ∅ t = [] /\ UnmarshalParams PF C DR ∅ t v = Returns None)
  \/ (missing_keys DR ∅ t <> []
      /\ UnmarshalParams PF C DR ∅ t v
         = Returns (Some (MissingFieldsError (mkMissingFields (missing_keys DR ∅ t))))).
Proof.
  rewrite UnmarshalParams_eq.
  destruct (unmarshalToValue_quiet t v (mkMissingFields []) []) as [Hm He].
  destruct (unmarshalToValue_missing PF C DR ∅ t v (mkMissingFields []) [])
    as [_ Hall].
  unfold conclude.
  destruct (parseErr (unmarshalToValue PF C DR ∅ t v (mkMissingFields []) []))
    as [|e|] eqn:Hw; [|now destruct (He e)|now left].
  right. specialize (Hall eq_refl). cbn [Names app] in Hall.
  rewrite Hm, map_size_empty. cbn [Nat.ltb Nat.leb].
  unfold HasMissingFields. rewrite Hall.
  destruct (missingErr _) as [names]. cbn [Names] in Hall. subst names.
  destruct (missing_keys DR ∅ t) as [|k ks]; [left | right]; split;
    (reflexivity || discriminate).
Qed.

End NoParameters.

(** ** Pagination *)

Lemma wrap_signed_add n a b :
  wrap_signed n (wrap_signed n a + b) = wrap_signed n (a + b).
Proof.
  unfold wrap_signed. f_equal.
  replace ((a + 2 ^ (n - 1)) mod 2 ^ n - 2 ^ (n - 1) + b + 2 ^ (n - 1))
    with ((a + 2 ^ (n - 1)) mod 2 ^ n + b) by lia.
  rewrite Zplus_mod_idemp_l. f_equal. lia.
Qed.

Lemma ParsePage_with_page params d s extra :
  ParsePage (<["page" := QStrings (s :: extra)]> params) d
  = let page_step (limit : Z) :=
      match Atoi s with
      | inr err => Page 0 limit (Some err)
      | inl page => Page (wrap_signed 64 ((page - 1) * limit)) limit None
      end in
    match params !! "page_size" with
    | Some sizeVal =>
        match first_string sizeVal with
        | None => PagePanics
        | Some sizeStr =>
            match Atoi sizeStr with
            | inr err => Page 0 d (Some err)
            | inl pageSize => page_step pageSize
            end
        end
    | None => page_step d
    end.
Proof.
  unfold ParsePage.
  rewrite lookup_insert_eq, lookup_insert_ne by discriminate. reflexivity.
Qed.

(** X14.  Page 1 starts at offset 0, and the page after a page starts
    one limit after it (in 64-bit arithmetic); the values after the
    first of "page" play no part. *)
Theorem ParsePage_pages_are_adjacent params d s extra o l :
  ParsePage (<["page" := QStrings (s :: extra)]> params) d = Page o l None ->
  (Atoi s = inl 1 -> o = 0)
  /\ (forall p s' extra',
        Atoi s = inl p -> Atoi s' = inl (p + 1) ->
        ParsePage (<["page" := QStrings (s' :: extra')]> params) d
        = Page (wrap_signed 64 (o + l)) l None).
Proof.
  rewrite ParsePage_with_page. cbv zeta. intros Hpage. split.
  - intros Hs. rewrite Hs in Hpage.
    destruct (params !! "page_size") as [sizeVal|].
    + destruct (first_string sizeVal) as [sizeStr|]; [|discriminate].
      destruct (Atoi sizeStr); [|discriminate]. now injection Hpage as <- _.
    + now injection Hpage as <- _.
  - intros p s' extra' Hs Hs'. rewrite ParsePage_with_page. cbv zeta.
    rewrite Hs in Hpage. rewrite Hs'.
    assert (Hnext : forall limit,
               Page (wrap_signed 64 ((p - 1) * limit)) limit None = Page o l None ->
               Page (wrap_signed 64 ((p + 1 - 1) * limit)) limit None
               = Page (wrap_signed 64 (o + l)) l None).
    { intros limit [= <- <-]. f_equal. rewrite wrap_signed_add. f_equal. lia. }
    destruct (params !! "page_size") as [sizeVal|]; [|now apply Hnext].
    destruct (first_string sizeVal) as [sizeStr|]; [|discriminate].
    destruct (Atoi sizeStr); [now apply Hnext | discriminate].
Qed.

Lemma ParsePage_pages_are_adjacent_witness :
  let params : gmap string query_value := {["page_size" := QStrings ["25"]]} in
  ParsePage (<["page" := QStrings ["3"; "9"]]> params) 10 = Page 50 25 None
  /\ ParsePage (<["page" := QStrings ["4"]]> params) 10 = Page 75 25 None.
Proof.
  intros params.
  assert (Hpage : ParsePage (<["page" := QStrings ["3"; "9"]]> params) 10
                  = Page 50 25 None) by (vm_compute; reflexivity).
  split; [exact Hpage|].
  destruct (ParsePage_pages_are_adjacent params 10 "3" ["9"] 50 25 Hpage) as [_ Hnext].
  apply (Hnext 3 "4" []); vm_compute; reflexivity.
Defined.

(** X15.  An error of [ParsePage] is that of [strconv.Atoi] on the first
    value of "page_size" or of "page", and comes with the offset 0;
    when it is about "page_size", the limit is the default. *)
Theorem ParsePage_error params d o l e :
  ParsePage params d = Page o l (Some e) ->
  o = 0
  /\ ((exists s extra,
          params !! "page_size" = Some (QStrings (s :: extra))
          /\ Atoi s = inr e /\ l = d)
      \/ (exists s extra,
             params !! "page" = Some (QStrings (s :: extra)) /\ Atoi s = inr e)).
Proof.
  unfold ParsePage.
  assert (Hpage : forall limit,
             match params !! "page" with
             | Some pageVal =>
                 match first_string pageVal with
                 | None => PagePanics
                 | Some pageStr =>
                     match Atoi pageStr with
                     | inr err => Page 0 limit (Some err)
                     | inl page => Page (wrap_signed 64 ((page - 1) * limit)) limit None
                     end
                 end
             | None => Page 0 limit None
             end = Page o l (Some e) ->
             o = 0 /\ exists s extra,
                 params !! "page" = Some (QStrings (s :: extra)) /\ Atoi s = inr e).
  { intros limit. destruct (params !! "page") as [pageVal|]; [|discriminate].
    destruct pageVal as [[|s extra]|]; cbn [first_string]; try discriminate.
    destruct (Atoi s) eqn:Hs; [discriminate|]. intros [= <- <- <-]. eauto. }
  destruct (params !! "page_size") as [sizeVal|].
  - destruct sizeVal as [[|s extra]|]; cbn [first_string]; try discriminate.
    destruct (Atoi s) eqn:Hs.
    + intros H. apply Hpage in H as [-> H]. auto.
    + intros [= <- <- <-]. split; [reflexivity|]. left. eauto.
  - intros H. apply Hpage in H as [-> H]. auto.
Qed.

(** A malformed "page_size" ends the call before "page" is looked at. *)
Lemma ParsePage_error_witness :
  let params : gmap string query_value :=
    {["page_size" := QStrings ["ten"]; "page" := QOther (RInt W0 2)]} in
  let e := NumError "Atoi" "ten" ErrSyntax in
  ParsePage params 20 = Page 0 20 (Some e)
  /\ 0 = 0
  /\ ((exists s extra,
          params !! "page_size" = Some (QStrings (s :: extra))
          /\ Atoi s = inr e /\ 20 = 20)
      \/ (exists s extra,
             params !! "page" = Some (QStrings (s :: extra)) /\ Atoi s = inr e)).
Proof.
  intros params e.
  assert (Hpage : ParsePage params 20 = Page 0 20 (Some e))
    by (vm_compute; reflexivity).
  exact (conj Hpage (ParsePage_error params 20 0 20 e Hpage)).
Defined.

(** A value of the parameters that [ParsePage] cannot read: not a
    [[]string], or an empty one. *)
Definition unreadable (params : gmap string query_value) (k : string) : Prop :=
  exists v, params !! k = Some v /\ first_string v = None.

(** X16.  [ParsePage] panics exactly when "page_size" is unreadable, or
    "page" is and no malformed "page_size" has ended the call before. *)
Theorem ParsePage_panics params d :
  ParsePage params d = PagePanics
  <-> unreadable params "page_size"
      \/ (unreadable params "page"
          /\ forall s extra,
               params !! "page_size" = Some (QStrings (s :: extra)) ->
               exists pageSize, Atoi s = inl pageSize).
Proof.
  unfold ParsePage, unreadable.
  destruct (params !! "page_size") as [sizeVal|] eqn:Hsize.
  - destruct sizeVal as [[|s extra]|]; cbn [first_string];
      try (split; [intros _; left; eauto | reflexivity]).
    destruct (Atoi s) as [pageSize|err] eqn:Hs.
    + destruct (params !! "page") as [pageVal|].
      * destruct (first_string pageVal) as [pageStr|] eqn:Hfirst.
        -- split; [destruct (Atoi pageStr); discriminate|].
           intros [(v & [= <-] & Hv) | [(v & [= <-] & Hv) _]]; [discriminate|congruence].
        -- split; [|reflexivity]. intros _. right. split; [eauto|].
           intros s' extra' [= <- <-]. eauto.
      * split; [discriminate|].
        intros [(v & [= <-] & Hv) | [(v & Hv & _) _]]; discriminate.
    + split; [discriminate|].
      intros [(v & [= <-] & Hv) | [_ Hok]]; [discriminate|].
      destruct (Hok s extra eq_refl) as [pageSize Hp]. congruence.
  - destruct (params !! "page") as [pageVal|].
    + destruct (first_string pageVal) as [pageStr|] eqn:Hfirst.
      * split; [destruct (Atoi pageStr); discriminate|].
        intros [(v & Hv & _) | [(v & [= <-] & Hv) _]]; [discriminate|congruence].
      * split; [|reflexivity]. intros _. right. split; [eauto|]. discriminate.
    + split; [discriminate|].
      intros [(v & Hv & _) | [(v & Hv & _) _]]; discriminate.
Qed.

(** ** Request bodies *)

Section BodyInduction.

Variable P : body_value -> Prop.
Hypothesis Pmap : forall objx entries,
    Forall (fun kv => P (snd kv)) entries -> P (BMap objx entries).
Hypothesis Plist : forall elems, Forall P elems -> P (BList elems).
Hypothesis Pleaf : forall v, P (BLeaf v).

Fixpoint body_value_ind (value : body_value) : P value :=
  match value with
  | BMap objx entries =>
      Pmap objx entries
        ((fix all (l : list (string * body_value)) : Forall (fun kv => P (snd kv)) l :=
            match l with
            | [] => List.Forall_nil _
            | kv :: l' => List.Forall_cons _ kv l' (body_value_ind (snd kv)) (all l')
            end) entries)
  | BList elems =>
      Plist elems
        ((fix all (l : list body_value) : Forall P l :=
            match l with
            | [] => List.Forall_nil _
            | x :: l' => List.Forall_cons _ x l' (body_value_ind x) (all l')
            end) elems)
  | BLeaf v => Pleaf v
  end.

End BodyInduction.

Lemma ConvertMSIToObjxMap_map src :
  ConvertMSIToObjxMap (BMap false src)
  = BMap true (map (fun kv => (fst kv, ConvertMSIToObjxMap (snd kv))) src).
Proof. reflexivity. Qed.

Lemma ConvertMSIToObjxMap_list src :
  ConvertMSIToObjxMap (BList src) = BList (map ConvertMSIToObjxMap src).
Proof. reflexivity. Qed.

Lemma all_objx_after_conversion value :
  no_objx value = true -> all_objx (ConvertMSIToObjxMap value) = true.
Proof.
  induction value as [objx entries IH | elems IH | v] using body_value_ind.
  - cbn [no_objx]. intros H. apply andb_prop in H as [Hobjx Hentries].
    destruct objx; [discriminate|].
    rewrite ConvertMSIToObjxMap_map. cbn [all_objx andb].
    induction IH as [|kv entries Hkv _ IHentries]; [reflexivity|].
    cbn [forallb] in Hentries. apply andb_prop in Hentries as [Hhere Hrest].
    cbn [map forallb snd]. now rewrite Hkv, IHentries.
  - cbn [no_objx]. intros Helems.
    rewrite ConvertMSIToObjxMap_list. cbn [all_objx].
    induction IH as [|x elems Hx _ IHelems]; [reflexivity|].
    cbn [forallb] in Helems. apply andb_prop in Helems as [Hhere Hrest].
    cbn [map forallb]. now rewrite Hx, IHelems.
  - reflexivity.
Qed.

(** X17.  After [ConvertMSIToObjxMap] on what [json.Unmarshal] produces,
    no [map[string]interface{}] is left at any depth. *)
Theorem ConvertMSIToObjxMap_converts_all value :
  no_objx value = true -> all_objx (ConvertMSIToObjxMap value) = true.
Proof.
  apply all_objx_after_conversion.
Qed.

(** [{"a": [{"b": 1}], "c": null}] *)
Lemma ConvertMSIToObjxMap_converts_all_witness :
  all_objx
    (ConvertMSIToObjxMap
       (BMap false [("a", BList [BMap false [("b", BLeaf (RFloat64 (Float.float64_of_Z 1)))]]);
                    ("c", BLeaf RNil)]))
  = true.
Proof. apply ConvertMSIToObjxMap_converts_all. vm_compute. reflexivity. Defined.

(** The type switch has no case for [objx.Map]: a
    [map[string]interface{}] held by one stays as it is. *)
Example objx_Map_is_not_entered :
  let value := BMap true [("a", BMap false [])] in
  ConvertMSIToObjxMap value = value /\ all_objx (ConvertMSIToObjxMap value) = false.
Proof. split; reflexivity. Qed.

(** X18.  [ConvertMSIToObjxMap] changes the types of maps only: the
    keys, their order, the lists and the other values are as before. *)
Theorem ConvertMSIToObjxMap_keeps_shape value :
  shape (ConvertMSIToObjxMap value) = shape value.
Proof.
  induction value as [objx entries IH | elems IH | v] using body_value_ind.
  - destruct objx; [reflexivity|].
    rewrite ConvertMSIToObjxMap_map. cbn [shape]. f_equal.
    induction IH as [|kv entries Hkv _ IHentries]; [reflexivity|].
    cbn [map fst snd]. now rewrite Hkv, IHentries.
  - rewrite ConvertMSIToObjxMap_list. cbn [shape]. f_equal.
    induction IH as [|x elems Hx _ IHelems]; [reflexivity|].
    cbn [map]. now rewrite Hx, IHelems.
  - reflexivity.
Qed.

(** X19.  Converting a converted value changes nothing. *)
Theorem ConvertMSIToObjxMap_idempotent value :
  ConvertMSIToObjxMap (ConvertMSIToObjxMap value) = ConvertMSIToObjxMap value.
Proof.
  induction value as [objx entries IH | elems IH | v] using body_value_ind.
  - destruct objx; reflexivity.
  - rewrite !ConvertMSIToObjxMap_list. f_equal.
    induction IH as [|x elems Hx _ IHelems]; [reflexivity|].
    cbn [map]. now rewrite Hx, IHelems.
  - reflexivity.
Qed.

(** X20.  The params of a JSON body, as [ParseParams] gets them from
    [ParseBody]: an object gives its keys in order, with values free of
    [map[string]interface{}]; [null] gives neither params nor error;
    an array or a scalar gives the error "Cannot use non-map body as
    params". *)
Theorem ParseParams_of_json_body value :
  no_objx value = true ->
  let result := ParseParams (inl (ConvertMSIToObjxMap value)) in
  match value with
  | BMap _ entries =>
      exists params,
        result = (Some params, None)
        /\ map fst params = map fst entries
        /\ forallb (fun kv => all_objx (snd kv)) params = true
  | BLeaf RNil => result = (None, None)
  | _ => result = (None, Some nonMapBody)
  end.
Proof.
  intros Hjson result. subst result.
  pose proof (all_objx_after_conversion value Hjson) as Hall.
  destruct value as [objx entries | elems | v].
  - cbn [no_objx] in Hjson. apply andb_prop in Hjson as [Hobjx _].
    destruct objx; [discriminate|].
    rewrite ConvertMSIToObjxMap_map in Hall |- *. cbn [ParseParams].
    eexists. split; [reflexivity|]. split.
    + rewrite map_map. reflexivity.
    + exact Hall.
  - reflexivity.
  - destruct v; reflexivity.
Qed.

Lemma ParseParams_of_json_body_witness :
  ParseParams (inl (ConvertMSIToObjxMap (BList [BLeaf (RString "a")])))
  = (None, Some nonMapBody).
Proof.
  apply (ParseParams_of_json_body (BList [BLeaf (RString "a")])). reflexivity.
Defined.

(** ** The earlier engine and the present one *)

Lemma Earlier_args f : snd (Earlier.getTagAndArgs f) = snd (NameAndArgs f).
Proof.
  unfold Earlier.getTagAndArgs, NameAndArgs.
  destruct (getNextOption (Get (Tag f) "request")) as [name remaining].
  destruct (negb (String.eqb name "")); [reflexivity|].
  destruct (negb (String.eqb (Get (Tag f) "response") "")); [reflexivity|].
  now destruct (negb (String.eqb (Get (Tag f) "db") "")
                && negb (String.eqb (Get (Tag f) "db") "-")).
Qed.

(** X21.  The two engines look an exported field up under the same key,
    and skip the same fields, but for a field whose only tag with a
    name is [db:"-"]: the earlier engine skips it, the present one
    binds it under its lower-cased name.  The options are the same. *)
Theorem Earlier_key (f : StructField) :
  exported (Name f) = true ->
  let only_db_dash :=
    fst (getNextOption (Get (Tag f) "request")) = ""
    /\ Get (Tag f) "response" = "" /\ Get (Tag f) "db" = "-" in
  snd (Earlier.getTagAndArgs f) = snd (NameAndArgs f)
  /\ (only_db_dash ->
      Earlier.lookup_key f = None /\ key f = Strings.ToLower (Name f))
  /\ (~ only_db_dash ->
      Earlier.lookup_key f = if String.eqb (key f) "-" then None else Some (key f)).
Proof.
  intros Hexported only_db_dash. subst only_db_dash.
  split; [apply Earlier_args|].
  apply exported_lower_not_dash, String.eqb_neq in Hexported.
  unfold Earlier.lookup_key, Earlier.getTagAndArgs, key, NameAndArgs.
  destruct (getNextOption (Get (Tag f) "request")) as [name remaining].
  cbn [fst].
  destruct (String.eqb name "") eqn:Hname; cbn [negb fst].
  2:{ split; [intros [-> _]; discriminate|]. intros _. cbn [fst].
      rewrite Hname. reflexivity. }
  apply String.eqb_eq in Hname. subst name.
  destruct (String.eqb (Get (Tag f) "response") "") eqn:Hresponse; cbn [negb fst].
  2:{ split; [intros (_ & Hr & _); rewrite Hr in Hresponse; discriminate|].
      intros _. cbn [fst]. rewrite Hresponse. reflexivity. }
  apply String.eqb_eq in Hresponse.
  destruct (String.eqb (Get (Tag f) "db") "") eqn:Hdb; cbn [negb andb fst].
  - apply String.eqb_eq in Hdb. rewrite Hdb. cbn [String.eqb fst].
    split; [intros (_ & _ & Hd); congruence|]. intros _.
    rewrite Hexported. reflexivity.
  - destruct (String.eqb (Get (Tag f) "db") "-") eqn:Hdash; cbn [negb fst].
    + split; [auto|]. intros Hnot. exfalso. apply Hnot.
      apply String.eqb_eq in Hdash. auto.
    + split; [intros (_ & _ & Hd); rewrite Hd in Hdash; discriminate|].
      intros _. rewrite Hdash. reflexivity.
Qed.

(** [Id int `db:"-"`] and [Id int `db:"id_col" request:"id,optional"`]. *)
Lemma Earlier_key_witness :
  Earlier.lookup_key db_dash = None
  /\ key db_dash = Strings.ToLower (Name db_dash)
  /\ Earlier.lookup_key
       (mkStructField "Id" [("db", "id_col"); ("request", "id,optional")] false)
     = Some "id".
Proof.
  destruct (Earlier_key db_dash) as (_ & Hdash & _); [reflexivity|].
  destruct (Earlier_key
              (mkStructField "Id" [("db", "id_col"); ("request", "id,optional")] false))
    as (_ & _ & Hsame); [reflexivity|].
  destruct Hdash as [Hskip Hkey]; [repeat split; reflexivity|].
  split; [exact Hskip|]. split; [exact Hkey|].
  rewrite Hsame; [reflexivity|]. intros (Hname & _). discriminate.
Defined.

Lemma Earlier_requiredness_false args : Earlier.requiredness false args = false.
Proof. induction args as [|arg args IH]; [reflexivity|]. cbn. now destruct (String.eqb _ _). Qed.

(** X22.  In the earlier engine a field is optional exactly when
    "optional" is among its options, wherever it stands; the present
    engine with [DefaultRequired] true agrees on options without
    "required", and need not when "required" comes before "optional". *)
Theorem Earlier_requiredness (args : list string) :
  (Earlier.requiredness true args = false <-> In "optional" args)
  /\ (~ In "required" args ->
      Earlier.requiredness true args = requiredness true args).
Proof.
  split.
  - induction args as [|arg args IH]; [split; [discriminate | intros []]|].
    cbn [Earlier.requiredness In].
    destruct (String.eqb arg "optional") eqn:Harg.
    + apply String.eqb_eq in Harg. split; [auto|]. intros _.
      apply Earlier_requiredness_false.
    + apply String.eqb_neq in Harg. rewrite IH. split; [auto|].
      now intros [H|H].
  - induction args as [|arg args IH]; [reflexivity|]. intros Hnot.
    cbn [Earlier.requiredness requiredness].
    destruct (String.eqb arg "optional") eqn:Harg;
      [apply Earlier_requiredness_false|].
    destruct (String.eqb arg "required") eqn:Hreq.
    + apply String.eqb_eq in Hreq. exfalso. apply Hnot. now left.
    + apply IH. intros Hin. apply Hnot. now right.
Qed.

Lemma Earlier_requiredness_witness :
  Earlier.requiredness true ["strict"; "optional"] = requiredness true ["strict"; "optional"]
  /\ Earlier.requiredness true ["required"; "optional"] = false
  /\ requiredness true ["required"; "optional"] = true.
Proof.
  split; [|split].
  - apply Earlier_requiredness. intros [H|[H|[]]]; discriminate.
  - apply Earlier_requiredness. right. now left.
  - reflexivity.
Defined.

(** X23.  In the earlier engine a nil sent to a [Null*] struct with a
    numeric value field sets [Valid] to false, leaves the value field
    as it is and returns no error. *)
Theorem Earlier_nil_clears_Valid
    (PF : string -> spec_float + error) (A : raw -> type -> option value)
    canAddr name ms fields vs i j fi ti fj msj k :
  capability Receive canAddr (TStruct name ms fields) = None ->
  Strings.HasPrefix name SqlNullablePrefix = true ->
  FieldByName fields (Strings.drop (String.length SqlNullablePrefix) name) = Some i ->
  FieldByName fields SqlNotNullField = Some j ->
  fields !! i = Some (fi, ti) -> Kind_of ti = Basic k -> numeric k = true ->
  fields !! j = Some (fj, TBasic "bool" Bool msj) ->
  (i < length vs)%nat ->
  Earlier.setValue PF A canAddr (TStruct name ms fields) (VStruct vs) RNil
  = (VStruct (<[j := VBool false]> vs), Nil).
Proof.
  intros Hcap Hprefix Hi Hj Hfi Hkind Hnum Hfj Hlen.
  assert (Hne : j <> i).
  { intros ->. rewrite Hfi in Hfj. injection Hfj as _ ->.
    cbn in Hkind. injection Hkind as <-. discriminate. }
  unfold Earlier.setValue. rewrite Hcap, Hprefix, Hi, Hj, Hfj, Hfi.
  cbn [is_nil negb].
  destruct (lookup_lt_is_Some_2 vs i Hlen) as [typeVal HtypeVal].
  rewrite list_lookup_insert_ne, HtypeVal by exact Hne.
  assert (Hassign : Earlier.assign PF A (IsExported (Name fi)) ti typeVal RNil
                    = (typeVal, Nil)).
  { unfold Earlier.assign. rewrite Hkind.
    destruct k as [| w | w | | | |]; try discriminate; reflexivity. }
  rewrite Hassign. f_equal. f_equal. apply list_insert_id.
  now rewrite list_lookup_insert_ne.
Qed.

(** [sql.NullInt64{Int64: 7, Valid: true}] and nil. *)
Lemma Earlier_nil_clears_Valid_witness :
  Earlier.setValue ParseFloat_none Convert_identical true NullInt64
    (VStruct [VInt 7; VBool true]) RNil
  = (VStruct [VInt 7; VBool false], Nil).
Proof.
  apply (Earlier_nil_clears_Valid ParseFloat_none Convert_identical true
           "NullInt64" no_methods _ [VInt 7; VBool true] 0%nat 1%nat
           (mkStructField "Int64" [] false) t_int64
           (mkStructField "Valid" [] false) no_methods (Int W64));
    try reflexivity.
  cbn. lia.
Defined.

(** ** Where conversion errors come from *)

(** X24.  [setInt] and [setFloat] return an error for nothing but a
    string that [ParseInt] or [ParseFloat] refuses: the error is the
    parser's, and the field keeps what it held.  No number and no value
    of another type is ever an error. *)
Theorem numeric_errors_come_from_strings
    (PF : string -> spec_float + error) canSet width single field v e :
  (snd (setInt canSet width field v) = Failed e ->
   exists s, v = RString s /\ Strconv.ParseInt s = inr e
             /\ fst (setInt canSet width field v) = field)
  /\ (snd (setFloat PF canSet single field v) = Failed e ->
      exists s, v = RString s /\ PF s = inr e
                /\ fst (setFloat PF canSet single field v) = field).
Proof.
  unfold setInt, setFloat, store. split.
  - destruct v as [| s | w z | w z | x | x | b | label];
      try (destruct canSet; discriminate).
    destruct (Strconv.ParseInt s) as [n|err] eqn:Hs; [destruct canSet; discriminate|].
    cbn. intros [= <-]. eauto.
  - destruct v as [| s | w z | w z | x | x | b | label];
      try (destruct canSet; discriminate).
    destruct (PF s) as [x|err] eqn:Hs; [destruct canSet; discriminate|].
    cbn. intros [= <-]. eauto.
Qed.

Lemma numeric_errors_come_from_strings_witness :
  exists s, RString "abc" = RString s
            /\ Strconv.ParseInt s = inr (NumError "ParseInt" "abc" ErrSyntax)
            /\ fst (setInt true W0 (VInt 5) (RString "abc")) = VInt 5.
Proof.
  apply (numeric_errors_come_from_strings ParseFloat_none true W0 false (VInt 5)
           (RString "abc") (NumError "ParseInt" "abc" ErrSyntax)).
  vm_compute. reflexivity.
Defined.
